(** * GrProxyProvider: the keyed registry of deferred GPU-surface proxies

    A shallow embedding of [src/gpu/GrProxyProvider.h].  The header carries
    the class layout, the hash-table traits of the key-to-proxy table and
    the bodies of the inline members ([createProxy]'s short overload,
    [abandon], [isAbandoned], [recordingDDL], [caps]); those are
    transcribed from the source.  The out-of-line members are only declared
    there; each of them is given a definition that follows the
    specification's description and says so in its comment.

    The second part embeds the concave-paths scene of
    [gm/concavepaths.cpp] as the sequence of calls it makes. *)

From stdpp Require Import base option list gmap.
From Stdlib Require Import ZArith QArith.

Local Open Scope Z_scope.

(** ** Value types that the header pulls in from GrTypes.h / GrResourceKey.h *)

(** Modelled from the spec: the policy enumerations (declared in GrTypes.h
    and SkTypes.h, which are not among the sources): fit is exact or
    approximate, a surface counts against the cache budget or not, is
    mip-mapped or not, and has its first row at the top or at the bottom. *)
Inductive SkBackingFit := kApprox | kExact.
Inductive SkBudgeted := SkBudgeted_kNo | SkBudgeted_kYes.
Inductive GrMipMapped := GrMipMapped_kNo | GrMipMapped_kYes.
Inductive GrSurfaceOrigin := kTopLeft_GrSurfaceOrigin | kBottomLeft_GrSurfaceOrigin.

(** [GrInternalSurfaceFlags] is a bit set; [kNone] is the empty one. *)
Definition GrInternalSurfaceFlags := N.
Definition GrInternalSurfaceFlags_kNone : GrInternalSurfaceFlags := 0%N.

(** Modelled from the spec: the surface descriptor (GrSurfaceDesc is declared
    in GrTypes.h, which is not among the sources) is a plain value
    with dimensions, a pixel-layout tag and a sample count. *)
Record GrSurfaceDesc := {
  fFlags : N;
  fWidth : Z;
  fHeight : Z;
  fConfig : N;
  fSampleCnt : Z
}.

(** Modelled from the spec: a unique key (GrUniqueKey is declared in
    GrResourceKey.h, not among the sources) is a content hash plus an optional domain
    tag, compared structurally.  Only valid keys inhabit this type; a
    possibly-invalid key, as a proxy or a surface stores it, is an
    [option GrUniqueKey]. *)
Record GrUniqueKey := {
  keyData : N;
  keyDomain : option N
}.

#[global] Instance SkBackingFit_eq_dec : EqDecision SkBackingFit.
Proof. solve_decision. Defined.
#[global] Instance GrUniqueKey_eq_dec : EqDecision GrUniqueKey.
Proof. solve_decision. Defined.

(** Modelled from the spec: [GrUniqueKey::hash()] (not among the sources) is
    structural: the 32-bit value it returns is a function of the key's
    content. *)
Definition GrUniqueKey_hash (k : GrUniqueKey) : Z :=
  Z.land (Z.of_N (keyData k)) (Z.ones 32).

(** ** Pointers

    The Provider holds two raw pointers that the code compares with null and
    nothing else; they are addresses, with 0 for [nullptr]. *)
Definition Ptr := N.
Definition nullptr : Ptr := 0%N.

(** [SkToBool(x)] is the SkTypes.h macro [((x) != 0)]. *)
Definition SkToBool (p : Ptr) : bool := negb (p =? nullptr)%N.

(** Proxies and backend surfaces live in two stores and are named by their
    address in them. *)
Definition ProxyPtr := nat.
Definition SurfacePtr := nat.

(** ** Proxies and surfaces *)

(** Modelled from the spec: the backend resource (GrSurface / GrTexture, not
    among the sources) as far as the Provider looks at it: its real dimensions and the
    unique key it may carry. *)
Record GrSurface := {
  surfDesc : GrSurfaceDesc;
  surfUniqueKey : option GrUniqueKey
}.

Definition surfWidth (s : GrSurface) : Z := fWidth (surfDesc s).
Definition surfHeight (s : GrSurface) : Z := fHeight (surfDesc s).

(** Modelled from the spec: the deferred handle (GrTextureProxy.h is not
    among the sources): the descriptor and policies it was created with, zero or one
    unique key, and the backend resource once it is instantiated. *)
Record GrTextureProxy := {
  fDesc : GrSurfaceDesc;
  fOrigin : GrSurfaceOrigin;
  fMipMapped : GrMipMapped;
  fFit : SkBackingFit;
  fBudgeted : SkBudgeted;
  fSurfaceFlags : GrInternalSurfaceFlags;
  fUniqueKey : option GrUniqueKey;
  fTarget : option SurfacePtr
}.

Definition getUniqueKey (p : GrTextureProxy) : option GrUniqueKey := fUniqueKey p.
Definition width (p : GrTextureProxy) : Z := fWidth (fDesc p).
Definition height (p : GrTextureProxy) : Z := fHeight (fDesc p).

Definition setUniqueKey (k : option GrUniqueKey) (p : GrTextureProxy) : GrTextureProxy :=
  {| fDesc := fDesc p; fOrigin := fOrigin p; fMipMapped := fMipMapped p;
     fFit := fFit p; fBudgeted := fBudgeted p; fSurfaceFlags := fSurfaceFlags p;
     fUniqueKey := k; fTarget := fTarget p |}.

Definition setTarget (t : option SurfacePtr) (p : GrTextureProxy) : GrTextureProxy :=
  {| fDesc := fDesc p; fOrigin := fOrigin p; fMipMapped := fMipMapped p;
     fFit := fFit p; fBudgeted := fBudgeted p; fSurfaceFlags := fSurfaceFlags p;
     fUniqueKey := fUniqueKey p; fTarget := t |}.

Definition removeSurfaceUniqueKey (s : GrSurface) : GrSurface :=
  {| surfDesc := surfDesc s; surfUniqueKey := None |}.

(** ** The Provider object (private section of the class) *)

(** [fUniquelyKeyedProxies] is an [SkTDynamicHash<GrTextureProxy, GrUniqueKey,
    UniquelyKeyedProxyHashTraits>]: it stores proxy pointers and reads each
    entry's key through the pointer.  The table is kept as the sequence of
    stored pointers; how the hash spreads them over buckets is not
    represented. *)
Record GrProxyProvider := {
  fUniquelyKeyedProxies : list ProxyPtr;
  fResourceProvider : Ptr;
  fResourceCache : Ptr;
  fAbandoned : bool;
  fCaps : Ptr
}.

(** Everything a Provider call can read or write: the Provider itself, the
    proxies it handed out, and the backend's surfaces. *)
Record Context := {
  provider : GrProxyProvider;
  proxies : gmap ProxyPtr GrTextureProxy;
  surfaces : gmap SurfacePtr GrSurface
}.

Definition withProvider (pv : GrProxyProvider) (c : Context) : Context :=
  {| provider := pv; proxies := proxies c; surfaces := surfaces c |}.

Definition withTable (t : list ProxyPtr) (pv : GrProxyProvider) : GrProxyProvider :=
  {| fUniquelyKeyedProxies := t;
     fResourceProvider := fResourceProvider pv;
     fResourceCache := fResourceCache pv;
     fAbandoned := fAbandoned pv;
     fCaps := fCaps pv |}.

(** ** Inline members of the header *)

Definition caps (c : Context) : Ptr := fCaps (provider c).

(** [void abandon()] *)
Definition abandon (c : Context) : Context :=
  withProvider
    {| fUniquelyKeyedProxies := fUniquelyKeyedProxies (provider c);
       fResourceProvider := nullptr;
       fResourceCache := nullptr;
       fAbandoned := true;
       fCaps := fCaps (provider c) |} c.

(** [bool isAbandoned() const], release build. *)
Definition isAbandoned (c : Context) : bool := fAbandoned (provider c).

(** [bool isAbandoned() const] with SK_DEBUG: [None] stands for the SkASSERT
    firing. *)
Definition isAbandoned_debug (c : Context) : option bool :=
  if fAbandoned (provider c) then
    if negb (SkToBool (fResourceCache (provider c)))
       && negb (SkToBool (fResourceProvider (provider c)))
    then Some (fAbandoned (provider c))
    else None
  else Some (fAbandoned (provider c)).

(** [bool recordingDDL() const] *)
Definition recordingDDL (c : Context) : bool :=
  negb (SkToBool (fResourceProvider (provider c))).

(** Modelled from the spec: the constructor (its body is in the .cpp, not
    among the sources) binds the Provider to the allocator and the cache it is given; it
    starts with an empty table and not abandoned. *)
Definition GrProxyProvider_new (resourceProvider resourceCache caps : Ptr) : GrProxyProvider :=
  {| fUniquelyKeyedProxies := [];
     fResourceProvider := resourceProvider;
     fResourceCache := resourceCache;
     fAbandoned := false;
     fCaps := caps |}.

(** ** The key-to-proxy table *)

(** [struct UniquelyKeyedProxyHashTraits] *)
Module UniquelyKeyedProxyHashTraits.
Definition GetKey (p : GrTextureProxy) : option GrUniqueKey := getUniqueKey p.
Definition Hash (key : GrUniqueKey) : Z := GrUniqueKey_hash key.
End UniquelyKeyedProxyHashTraits.

(** The key under which a stored pointer is filed: [GetKey] of the pointee.  A pointer
    to a proxy that is gone, or to one without a key, matches no key. *)
Definition entryKey (h : gmap ProxyPtr GrTextureProxy) (p : ProxyPtr) : option GrUniqueKey :=
  h !! p ≫= UniquelyKeyedProxyHashTraits.GetKey.

(** Modelled from the spec: SkTDynamicHash is not among the sources; the find-by-key
    path is one lookup on structural equality of the key, and the first
    exact match wins. *)
Fixpoint table_find (h : gmap ProxyPtr GrTextureProxy) (t : list ProxyPtr)
    (key : GrUniqueKey) : option ProxyPtr :=
  match t with
  | [] => None
  | p :: t' =>
      if decide (entryKey h p = Some key) then Some p else table_find h t' key
  end.

(** Modelled from the spec: erasing an entry of the table (SkTDynamicHash is
    not among the sources) takes one stored pointer out and leaves the others in
    place. *)
Fixpoint table_remove (p : ProxyPtr) (t : list ProxyPtr) : list ProxyPtr :=
  match t with
  | [] => []
  | q :: t' => if decide (q = p) then t' else q :: table_remove p t'
  end.

Definition table (c : Context) : list ProxyPtr := fUniquelyKeyedProxies (provider c).

(** Modelled from the spec: [numUniqueKeyProxies_TestOnly] (body not among the sources)
    reports how many entries the key-to-proxy table owned by the Provider
    holds. *)
Definition numUniqueKeyProxies_TestOnly (c : Context) : nat := length (table c).

(** ** Results of a Provider call

    A call hands back its C++ return value, the context it leaves behind and
    the list of backend pointers of the Provider it went through. *)
Inductive BackendPtr := ResourceProviderPtr | ResourceCachePtr.

Record Outcome (A : Type) := mkOutcome {
  result : A;
  after : Context;
  derefs : list BackendPtr
}.
Arguments mkOutcome {A} _ _ _.
Arguments result {A} _.
Arguments after {A} _.
Arguments derefs {A} _.

Definition done_with {A} (a : A) (c : Context) : Outcome A := mkOutcome a c [].

(** The address a backend pointer of the Provider holds. *)
Definition backendPtr (c : Context) (b : BackendPtr) : Ptr :=
  match b with
  | ResourceProviderPtr => fResourceProvider (provider c)
  | ResourceCachePtr => fResourceCache (provider c)
  end.

(** ** Out-of-line members (declared in the header, bodies in the .cpp) *)

(** Modelled from the spec: [assignUniqueKeyToProxy] (body not among the sources)
    attaches the key to the proxy and inserts the proxy into the table.  It
    fails, changing nothing, after abandonment, on a pointer to no proxy, if
    the proxy already carries a key, or if the key already maps to a
    proxy. *)
Definition assignUniqueKeyToProxy (key : GrUniqueKey) (p : ProxyPtr) (c : Context)
    : Outcome bool :=
  if isAbandoned c then done_with false c
  else match proxies c !! p with
       | None => done_with false c
       | Some px =>
           match getUniqueKey px with
           | Some _ => done_with false c
           | None =>
               match table_find (proxies c) (table c) key with
               | Some _ => done_with false c
               | None =>
                   done_with true
                     {| provider := withTable (p :: table c) (provider c);
                        proxies := <[p := setUniqueKey (Some key) px]> (proxies c);
                        surfaces := surfaces c |}
               end
           end
       end.

(** Modelled from the spec: [adoptUniqueKeyFromSurface] (body not among the
    sources) copies the key that an already-real backend resource carries
    onto the proxy and registers the proxy in the table; the resource must
    carry a valid key.  The table is not consulted.  Nothing happens after
    abandonment, when the resource has no valid key, on a pointer to no
    proxy, and when the proxy already carries a key (a second key on a
    keyed proxy is a contract violation, reduced to a no-op). *)
Definition adoptUniqueKeyFromSurface (p : ProxyPtr) (s : SurfacePtr) (c : Context)
    : Outcome unit :=
  if isAbandoned c then done_with () c
  else match surfaces c !! s ≫= surfUniqueKey, proxies c !! p with
       | Some key, Some px =>
           match getUniqueKey px with
           | Some _ => done_with () c
           | None =>
               done_with ()
                 {| provider := withTable (p :: table c) (provider c);
                    proxies := <[p := setUniqueKey (Some key) px]> (proxies c);
                    surfaces := surfaces c |}
           end
       | _, _ => done_with () c
       end.

(** Modelled from the spec: [processInvalidProxyUniqueKey(key, proxy,
    invalidateSurface)] (body not among the sources) is the direct removal: the proxy
    must carry exactly this key; its entry is erased from the table, the
    proxy no longer carries the key, and on request the key is also stripped
    from the backend resource the proxy is instantiated on.  After
    abandonment, and when the proxy does not carry the key, nothing
    happens. *)
Definition processInvalidProxyUniqueKey3 (key : GrUniqueKey) (p : ProxyPtr)
    (invalidateSurface : bool) (c : Context) : Outcome unit :=
  if isAbandoned c then done_with () c
  else match proxies c !! p with
       | None => done_with () c
       | Some px =>
           if decide (getUniqueKey px = Some key) then
             done_with ()
               {| provider := withTable (table_remove p (table c)) (provider c);
                  proxies := <[p := setUniqueKey None px]> (proxies c);
                  surfaces :=
                    if invalidateSurface then
                      match fTarget px with
                      | Some s => alter removeSurfaceUniqueKey s (surfaces c)
                      | None => surfaces c
                      end
                    else surfaces c |}
           else done_with () c
       end.

(** Modelled from the spec: [processInvalidProxyUniqueKey(key)] (body not among
    the sources) is the removal by key alone: it looks up whatever is registered
    under the key and erases that entry, leaving the backend resource's own
    key alone; an absent key is a silent miss. *)
Definition processInvalidProxyUniqueKey (key : GrUniqueKey) (c : Context) : Outcome unit :=
  match table_find (proxies c) (table c) key with
  | None => done_with () c
  | Some p => processInvalidProxyUniqueKey3 key p false c
  end.

(** Modelled from the spec: [removeUniqueKeyFromProxy] (body not among the sources)
    removes the key from the proxy and, if the proxy has been instantiated,
    from its target surface as well. *)
Definition removeUniqueKeyFromProxy (key : GrUniqueKey) (p : ProxyPtr) (c : Context)
    : Outcome unit :=
  processInvalidProxyUniqueKey3 key p true c.

(** Modelled from the spec: [findProxyByUniqueKey] (body not among the sources) is the
    table lookup; after abandonment it is an empty return. *)
Definition findProxyByUniqueKey (key : GrUniqueKey) (origin : GrSurfaceOrigin)
    (c : Context) : Outcome (option ProxyPtr) :=
  if isAbandoned c then done_with None c
  else done_with (table_find (proxies c) (table c) key) c.

(** Modelled from the spec: the external cache's lookup of an already-real
    resource by unique key. *)
Definition findSurfaceByUniqueKey (surfs : gmap SurfacePtr GrSurface) (key : GrUniqueKey)
    : option (SurfacePtr * GrSurface) :=
  List.find (λ e, bool_decide (surfUniqueKey (snd e) = Some key)) (map_to_list surfs).

(** Modelled from the spec: [createWrapped] (body not among the sources)
    adapts an already-real backend resource into a new proxy that is born
    instantiated.  After abandonment it returns empty. *)
Definition createWrapped (s : SurfacePtr) (surf : GrSurface) (origin : GrSurfaceOrigin)
    (c : Context) : Outcome (option ProxyPtr) :=
  if isAbandoned c then done_with None c
  else
    let p := fresh (dom (proxies c)) in
    done_with (Some p)
      {| provider := provider c;
         proxies := <[p := {| fDesc := surfDesc surf; fOrigin := origin;
                              fMipMapped := GrMipMapped_kNo; fFit := kExact;
                              fBudgeted := SkBudgeted_kYes;
                              fSurfaceFlags := GrInternalSurfaceFlags_kNone;
                              fUniqueKey := None; fTarget := Some s |}]> (proxies c);
         surfaces := surfaces c |}.

(** Modelled from the spec: [findOrCreateProxyByUniqueKey] (body not among the sources)
    is the lookup; on a miss it goes through the allocator and the external
    cache to see whether an instantiated backend resource carries the key,
    wraps it and registers the new proxy under the key, or returns empty.
    Without a live allocator and cache there is nobody to ask. *)
Definition findOrCreateProxyByUniqueKey (key : GrUniqueKey) (origin : GrSurfaceOrigin)
    (c : Context) : Outcome (option ProxyPtr) :=
  if isAbandoned c then done_with None c
  else match table_find (proxies c) (table c) key with
       | Some p => done_with (Some p) c
       | None =>
           if SkToBool (fResourceProvider (provider c))
              && SkToBool (fResourceCache (provider c))
           then
             match findSurfaceByUniqueKey (surfaces c) key with
             | None => mkOutcome None c [ResourceProviderPtr; ResourceCachePtr]
             | Some (s, surf) =>
                 let w := createWrapped s surf origin c in
                 match result w with
                 | None => mkOutcome None (after w) [ResourceProviderPtr; ResourceCachePtr]
                 | Some p =>
                     mkOutcome (Some p)
                       (after (adoptUniqueKeyFromSurface p s (after w)))
                       [ResourceProviderPtr; ResourceCachePtr]
                 end
             end
           else done_with None c
       end.

(** Modelled from the spec: [createProxy], the full overload (body not among
    the sources), returns at once a handle for a surface that does not exist yet:
    a new proxy with the requested descriptor and policies, no key and no
    backend resource.  After abandonment it returns empty. *)
Definition createProxy (desc : GrSurfaceDesc) (origin : GrSurfaceOrigin)
    (mipMapped : GrMipMapped) (fit : SkBackingFit) (budgeted : SkBudgeted)
    (surfaceFlags : GrInternalSurfaceFlags) (c : Context) : Outcome (option ProxyPtr) :=
  if isAbandoned c then done_with None c
  else
    let p := fresh (dom (proxies c)) in
    done_with (Some p)
      {| provider := provider c;
         proxies := <[p := {| fDesc := desc; fOrigin := origin; fMipMapped := mipMapped;
                              fFit := fit; fBudgeted := budgeted;
                              fSurfaceFlags := surfaceFlags;
                              fUniqueKey := None; fTarget := None |}]> (proxies c);
         surfaces := surfaces c |}.

(** The inline overload of [createProxy] (header lines 112-117).  Its body
    is one call of the full overload, which is taken here as it comes. *)
Section InlineOverload.
Variable R : Type.
Variable this_createProxy :
  GrSurfaceDesc → GrSurfaceOrigin → GrMipMapped → SkBackingFit → SkBudgeted →
  GrInternalSurfaceFlags → R.

Definition createProxy_short (desc : GrSurfaceDesc) (origin : GrSurfaceOrigin)
    (fit : SkBackingFit) (budgeted : SkBudgeted)
    (surfaceFlags : GrInternalSurfaceFlags) : R :=
  this_createProxy desc origin GrMipMapped_kNo fit budgeted surfaceFlags.

(** The same call with the defaulted last argument left out. *)
Definition createProxy_short_default (desc : GrSurfaceDesc) (origin : GrSurfaceOrigin)
    (fit : SkBackingFit) (budgeted : SkBudgeted) : R :=
  createProxy_short desc origin fit budgeted GrInternalSurfaceFlags_kNone.
End InlineOverload.
Arguments createProxy_short {R} _ _ _ _ _ _.
Arguments createProxy_short_default {R} _ _ _ _ _.

(** ** The exactness query *)

Definition peekSurface (c : Context) (px : GrTextureProxy) : option GrSurface :=
  fTarget px ≫= λ s, surfaces c !! s.

Section Exactness.
(** What the query answers for an approximate-fit proxy that has no backend
    resource yet is not said by the header or the specification; it is left open. *)
Variable uninstantiatedApproxIsExact : GrSurfaceDesc → bool.

(** Modelled from the spec: [IsFunctionallyExact] (body not among the sources) tells
    whether the backing resource's dimensions may be assumed equal to the
    requested ones: an exact-fit proxy is exact; an approximate-fit proxy
    that is instantiated is exact when the resource it backs is not larger
    than requested, that is, has exactly the requested dimensions. *)
Definition IsFunctionallyExact (c : Context) (px : GrTextureProxy) : bool :=
  match fFit px with
  | kExact => true
  | kApprox =>
      match peekSurface c px with
      | Some surf => (surfWidth surf =? width px) && (surfHeight surf =? height px)
      | None => uninstantiatedApproxIsExact (fDesc px)
      end
  end.
End Exactness.

(** ** The life of a proxy outside the Provider *)

(** Modelled from the spec: when the last owner drops a proxy, its
    destructor (GrTextureProxy.cpp, not among the sources) notifies the
    Provider, if the proxy is keyed, and the Provider erases the proxy's
    table entry, abandoned or not: the table never keeps a proxy that is
    gone.  Then the proxy is gone. *)
Definition releaseProxy (p : ProxyPtr) (c : Context) : Context :=
  match proxies c !! p with
  | None => c
  | Some px =>
      {| provider := match getUniqueKey px with
                     | Some _ => withTable (table_remove p (table c)) (provider c)
                     | None => provider c
                     end;
         proxies := delete p (proxies c);
         surfaces := surfaces c |}
  end.

(** Modelled from the spec: at flush an uninstantiated proxy is bound to the
    backend resource produced for it; the transition is one-way here. *)
Definition instantiate (p : ProxyPtr) (s : SurfacePtr) (c : Context) : Context :=
  match proxies c !! p, surfaces c !! s with
  | Some px, Some _ =>
      match fTarget px with
      | Some _ => c
      | None => {| provider := provider c;
                   proxies := <[p := setTarget (Some s) px]> (proxies c);
                   surfaces := surfaces c |}
      end
  | _, _ => c
  end.

(** Modelled from the spec: the external cache allocates backend resources
    and keys them of its own accord; the Provider only sees the result. *)
Definition backendStore (s : SurfacePtr) (surf : GrSurface) (c : Context) : Context :=
  {| provider := provider c; proxies := proxies c; surfaces := <[s := surf]> (surfaces c) |}.

(** ** Sequences of operations *)

Inductive Op :=
| OpAssignUniqueKeyToProxy (key : GrUniqueKey) (p : ProxyPtr)
| OpAdoptUniqueKeyFromSurface (p : ProxyPtr) (s : SurfacePtr)
| OpRemoveUniqueKeyFromProxy (key : GrUniqueKey) (p : ProxyPtr)
| OpProcessInvalidProxyUniqueKey (key : GrUniqueKey)
| OpProcessInvalidProxyUniqueKey3 (key : GrUniqueKey) (p : ProxyPtr) (invalidateSurface : bool)
| OpFindProxyByUniqueKey (key : GrUniqueKey) (origin : GrSurfaceOrigin)
| OpFindOrCreateProxyByUniqueKey (key : GrUniqueKey) (origin : GrSurfaceOrigin)
| OpCreateProxy (desc : GrSurfaceDesc) (origin : GrSurfaceOrigin) (mipMapped : GrMipMapped)
    (fit : SkBackingFit) (budgeted : SkBudgeted) (surfaceFlags : GrInternalSurfaceFlags)
| OpCreateProxyShort (desc : GrSurfaceDesc) (origin : GrSurfaceOrigin)
    (fit : SkBackingFit) (budgeted : SkBudgeted) (surfaceFlags : GrInternalSurfaceFlags)
| OpAbandon
| OpReleaseProxy (p : ProxyPtr)
| OpInstantiate (p : ProxyPtr) (s : SurfacePtr)
| OpBackendStore (s : SurfacePtr) (surf : GrSurface)
| OpCreateWrapped (s : SurfacePtr) (origin : GrSurfaceOrigin).

(** The context an operation leaves behind. *)
Definition run (op : Op) (c : Context) : Context :=
  match op with
  | OpAssignUniqueKeyToProxy key p => after (assignUniqueKeyToProxy key p c)
  | OpAdoptUniqueKeyFromSurface p s => after (adoptUniqueKeyFromSurface p s c)
  | OpRemoveUniqueKeyFromProxy key p => after (removeUniqueKeyFromProxy key p c)
  | OpProcessInvalidProxyUniqueKey key => after (processInvalidProxyUniqueKey key c)
  | OpProcessInvalidProxyUniqueKey3 key p inv => after (processInvalidProxyUniqueKey3 key p inv c)
  | OpFindProxyByUniqueKey key origin => after (findProxyByUniqueKey key origin c)
  | OpFindOrCreateProxyByUniqueKey key origin => after (findOrCreateProxyByUniqueKey key origin c)
  | OpCreateProxy desc origin mip fit budgeted flags =>
      after (createProxy desc origin mip fit budgeted flags c)
  | OpCreateProxyShort desc origin fit budgeted flags =>
      after (createProxy_short createProxy desc origin fit budgeted flags c)
  | OpAbandon => abandon c
  | OpReleaseProxy p => releaseProxy p c
  | OpInstantiate p s => instantiate p s c
  | OpBackendStore s surf => backendStore s surf c
  | OpCreateWrapped s origin =>
      match surfaces c !! s with
      | Some surf => after (createWrapped s surf origin c)
      | None => c
      end
  end.

(** The backend pointers of the Provider an operation goes through. *)
Definition run_derefs (op : Op) (c : Context) : list BackendPtr :=
  match op with
  | OpAssignUniqueKeyToProxy key p => derefs (assignUniqueKeyToProxy key p c)
  | OpAdoptUniqueKeyFromSurface p s => derefs (adoptUniqueKeyFromSurface p s c)
  | OpRemoveUniqueKeyFromProxy key p => derefs (removeUniqueKeyFromProxy key p c)
  | OpProcessInvalidProxyUniqueKey key => derefs (processInvalidProxyUniqueKey key c)
  | OpProcessInvalidProxyUniqueKey3 key p inv => derefs (processInvalidProxyUniqueKey3 key p inv c)
  | OpFindProxyByUniqueKey key origin => derefs (findProxyByUniqueKey key origin c)
  | OpFindOrCreateProxyByUniqueKey key origin => derefs (findOrCreateProxyByUniqueKey key origin c)
  | OpCreateProxy desc origin mip fit budgeted flags =>
      derefs (createProxy desc origin mip fit budgeted flags c)
  | OpCreateProxyShort desc origin fit budgeted flags =>
      derefs (createProxy_short createProxy desc origin fit budgeted flags c)
  | OpAbandon | OpReleaseProxy _ | OpInstantiate _ _ | OpBackendStore _ _ => []
  | OpCreateWrapped s origin =>
      match surfaces c !! s with
      | Some surf => derefs (createWrapped s surf origin c)
      | None => []
      end
  end.

Definition run_all (ops : list Op) (c : Context) : Context := foldl (λ c op, run op c) c ops.

(** A Provider fresh from its constructor, with no proxy handed out yet and
    whatever resources the backend already holds. *)
Definition initial (resourceProvider resourceCache caps : Ptr)
    (surfs : gmap SurfacePtr GrSurface) : Context :=
  {| provider := GrProxyProvider_new resourceProvider resourceCache caps;
     proxies := ∅;
     surfaces := surfs |}.

Inductive reachable : Context → Prop :=
| reachable_initial rp rc caps surfs : reachable (initial rp rc caps surfs)
| reachable_run op c : reachable c → reachable (run op c).

(** [adoptUniqueKeyFromSurface] does not look into the table; it is used
    within its contract when the key of the surface is not registered
    yet. *)
Definition adopt_in_contract (op : Op) (c : Context) : Prop :=
  match op with
  | OpAdoptUniqueKeyFromSurface p s =>
      ∀ key, surfaces c !! s ≫= surfUniqueKey = Some key →
             table_find (proxies c) (table c) key = None
  | _ => True
  end.

(** The contexts reached by sequences of operations that keep to that
    contract. *)
Inductive reachable_in_contract : Context → Prop :=
| in_contract_initial rp rc caps surfs : reachable_in_contract (initial rp rc caps surfs)
| in_contract_run op c :
    reachable_in_contract c → adopt_in_contract op c → reachable_in_contract (run op c).

(** ** Properties of a context *)

(** The entries of a table are sound for a store when no pointer is stored
    twice and every stored pointer names a live proxy that carries a key. *)
Definition entries_sound (t : list ProxyPtr) (h : gmap ProxyPtr GrTextureProxy) : Prop :=
  NoDup t ∧ ∀ p, p ∈ t → is_Some (entryKey h p).

(** No two stored proxies carry the same key. *)
Definition entries_unique (t : list ProxyPtr) (h : gmap ProxyPtr GrTextureProxy) : Prop :=
  ∀ p q key, p ∈ t → q ∈ t → entryKey h p = Some key → entryKey h q = Some key → p = q.

Definition table_sound (c : Context) : Prop := entries_sound (table c) (proxies c).
Definition keys_unique (c : Context) : Prop := entries_unique (table c) (proxies c).



(** The key is not present in the table. *)
Definition key_absent (c : Context) (key : GrUniqueKey) : Prop :=
  ∀ p, p ∈ table c → entryKey (proxies c) p ≠ Some key.

(** ** Concrete contexts used to exercise the definitions *)

Definition key1 : GrUniqueKey := {| keyData := 1%N; keyDomain := None |}.
Definition key2 : GrUniqueKey := {| keyData := 2%N; keyDomain := Some 7%N |}.

Definition desc_of (w h : Z) : GrSurfaceDesc :=
  {| fFlags := 0%N; fWidth := w; fHeight := h; fConfig := 0%N; fSampleCnt := 1 |}.

(** A live Provider, bound to an allocator and a cache. *)
Definition ctx_live : Context := initial 4096%N 8192%N 12288%N ∅.

(** Proxy A, 64x64, created and then keyed with [key1]. *)
Definition ctx_A : Context :=
  run_all [OpCreateProxy (desc_of 64 64) kTopLeft_GrSurfaceOrigin GrMipMapped_kNo
             kExact SkBudgeted_kYes GrInternalSurfaceFlags_kNone;
           OpAssignUniqueKeyToProxy key1 0%nat] ctx_live.

(** An approximate-fit 100x100 proxy instantiated on a backend resource of
    the given real size. *)
Definition ctx_approx (w h : Z) : Context :=
  run_all [OpCreateProxy (desc_of 100 100) kTopLeft_GrSurfaceOrigin GrMipMapped_kNo
             kApprox SkBudgeted_kYes GrInternalSurfaceFlags_kNone;
           OpBackendStore 5%nat {| surfDesc := desc_of w h; surfUniqueKey := Some key2 |};
           OpInstantiate 0%nat 5%nat;
           OpAssignUniqueKeyToProxy key2 0%nat] ctx_live.

(** [ctx_A] with a second proxy B, 32x32 and without a key. *)
Definition ctx_AB : Context :=
  run (OpCreateProxy (desc_of 32 32) kBottomLeft_GrSurfaceOrigin GrMipMapped_kNo
         kExact SkBudgeted_kYes GrInternalSurfaceFlags_kNone) ctx_A.

(** The proxy of [ctx_approx], as it sits in the store. *)
Definition proxy_approx : GrTextureProxy :=
  {| fDesc := desc_of 100 100; fOrigin := kTopLeft_GrSurfaceOrigin;
     fMipMapped := GrMipMapped_kNo; fFit := kApprox; fBudgeted := SkBudgeted_kYes;
     fSurfaceFlags := GrInternalSurfaceFlags_kNone;
     fUniqueKey := Some key2; fTarget := Some 5%nat |}.

(** [ctx_A] abandoned, with a creation attempted afterwards. *)
Definition ctx_A_abandoned : Context :=
  run_all [OpAbandon;
           OpCreateProxy (desc_of 8 8) kTopLeft_GrSurfaceOrigin GrMipMapped_kNo
             kExact SkBudgeted_kYes GrInternalSurfaceFlags_kNone] ctx_A.





(** The invariant of a well-kept registry: the table stores no pointer twice, no
    two stored proxies carry the same key, and, as long as the Provider has
    not been abandoned, every stored pointer is a live proxy with a key. *)
Record registry_ok (c : Context) : Prop := {
  ok_nodup : NoDup (table c);
  ok_keys : ∀ p q key, p ∈ table c → q ∈ table c →
            entryKey (proxies c) p = Some key → entryKey (proxies c) q = Some key → p = q;
  ok_keyed : isAbandoned c = false → ∀ p, p ∈ table c → is_Some (entryKey (proxies c) p)
}.

(** What the SK_DEBUG assertion of [isAbandoned] asks for. *)
Definition severed_if_abandoned (c : Context) : Prop :=
  isAbandoned c = true →
  fResourceCache (provider c) = nullptr ∧ fResourceProvider (provider c) = nullptr.

(** The three fields of the Provider that [abandon] writes. *)
Definition links (c : Context) : Ptr * Ptr * bool :=
  (fResourceProvider (provider c), fResourceCache (provider c), fAbandoned (provider c)).

(** The other half of the registry invariant: as long as the Provider has
    not been abandoned, every live proxy that carries a key is stored in the
    table. *)
Definition keyed_registered (c : Context) : Prop :=
  isAbandoned c = false →
  ∀ p px, proxies c !! p = Some px → is_Some (getUniqueKey px) → p ∈ table c.

(** A Provider marked abandoned whose resource provider pointer was not
    cleared: no call produces it, it only serves to show the SK_DEBUG
    assertion of [isAbandoned] firing. *)
Definition ctx_inconsistent : Context :=
  withProvider
    {| fUniquelyKeyedProxies := [];
       fResourceProvider := 4096%N;
       fResourceCache := nullptr;
       fAbandoned := true;
       fCaps := 12288%N |} ctx_live.

(** A Provider constructed without an allocator, for deferred recording. *)
Definition ctx_recording : Context := initial nullptr 8192%N 12288%N ∅.

(** [ctx_A] with a backend resource that carries [key2]. *)
Definition ctx_A_surface : Context :=
  run (OpBackendStore 5%nat {| surfDesc := desc_of 16 16; surfUniqueKey := Some key2 |}) ctx_A.

(** * gm/concavepaths.cpp: the concave-paths scene

    The scene is straight-line code over three classes that live outside
    this file (SkPath, SkPaint, SkCanvas).  Nothing is assumed about them:
    an object is the sequence of the calls made on it since it was
    constructed, in order, and a method call appends to that sequence. *)
Module ConcavePaths.

(** [SkScalar] is a 32-bit float.  The scene only passes constants; each is
    kept as the exact rational value of the float the literal denotes. *)
Definition SkScalar := Q.

(** [SkIntToScalar(x)] is [static_cast<SkScalar>(x)]. *)
Definition SkIntToScalar (x : Z) : SkScalar := inject_Z x.

Inductive SkPathCall :=
| moveTo (x y : SkScalar)
| lineTo (x y : SkScalar)
| quadTo (x1 y1 x2 y2 : SkScalar)
| close
| setIsVolatile (isVolatile : bool).

Definition SkPath := list SkPathCall.

Inductive SkPaint_Style := kFill_Style | kStroke_Style | kStrokeAndFill_Style.

Inductive SkPaintCall :=
| setAntiAlias (aa : bool)
| setStyle (style : SkPaint_Style).

Definition SkPaint := list SkPaintCall.

Inductive SkCanvasCall :=
| save
| restore
| translate (dx dy : SkScalar)
| scale (sx sy : SkScalar)
| drawPath (path : SkPath) (paint : SkPaint).

Definition SkCanvas := list SkCanvasCall.

(** A method call on an object. *)
Definition call {A : Type} (obj : list A) (m : A) : list A := obj ++ [m].
Local Notation "obj ->> m" := (call obj m) (at level 50, left associativity).

Definition test_concave (canvas : SkCanvas) (paint : SkPaint) : SkCanvas :=
  let path : SkPath := [] in
  let canvas := canvas ->> translate 0%Q 0%Q in
  let path := path ->> moveTo (SkIntToScalar 20) (SkIntToScalar 20) in
  let path := path ->> lineTo (SkIntToScalar 80) (SkIntToScalar 20) in
  let path := path ->> lineTo (SkIntToScalar 30) (SkIntToScalar 30) in
  let path := path ->> lineTo (SkIntToScalar 20) (SkIntToScalar 80) in
  let canvas := canvas ->> drawPath path paint in
  canvas.

Definition test_reverse_concave (canvas : SkCanvas) (paint : SkPaint) : SkCanvas :=
  let path : SkPath := [] in
  let canvas := canvas ->> save in
  let canvas := canvas ->> translate 100%Q 0%Q in
  let path := path ->> moveTo (SkIntToScalar 20) (SkIntToScalar 20) in
  let path := path ->> lineTo (SkIntToScalar 20) (SkIntToScalar 80) in
  let path := path ->> lineTo (SkIntToScalar 30) (SkIntToScalar 30) in
  let path := path ->> lineTo (SkIntToScalar 80) (SkIntToScalar 20) in
  let canvas := canvas ->> drawPath path paint in
  let canvas := canvas ->> restore in
  canvas.

Definition test_bowtie (canvas : SkCanvas) (paint : SkPaint) : SkCanvas :=
  let path : SkPath := [] in
  let canvas := canvas ->> save in
  let canvas := canvas ->> translate 200%Q 0%Q in
  let path := path ->> moveTo (SkIntToScalar 20) (SkIntToScalar 20) in
  let path := path ->> lineTo (SkIntToScalar 80) (SkIntToScalar 80) in
  let path := path ->> lineTo (SkIntToScalar 80) (SkIntToScalar 20) in
  let path := path ->> lineTo (SkIntToScalar 20) (SkIntToScalar 80) in
  let canvas := canvas ->> drawPath path paint in
  let canvas := canvas ->> restore in
  canvas.

Definition test_fake_bowtie (canvas : SkCanvas) (paint : SkPaint) : SkCanvas :=
  let path : SkPath := [] in
  let canvas := canvas ->> save in
  let canvas := canvas ->> translate 300%Q 0%Q in
  let path := path ->> moveTo (SkIntToScalar 20) (SkIntToScalar 20) in
  let path := path ->> lineTo (SkIntToScalar 50) (SkIntToScalar 40) in
  let path := path ->> lineTo (SkIntToScalar 80) (SkIntToScalar 20) in
  let path := path ->> lineTo (SkIntToScalar 80) (SkIntToScalar 80) in
  let path := path ->> lineTo (SkIntToScalar 50) (SkIntToScalar 60) in
  let path := path ->> lineTo (SkIntToScalar 20) (SkIntToScalar 80) in
  let canvas := canvas ->> drawPath path paint in
  let canvas := canvas ->> restore in
  canvas.

Definition test_intruding_vertex (canvas : SkCanvas) (paint : SkPaint) : SkCanvas :=
  let path : SkPath := [] in
  let canvas := canvas ->> save in
  let canvas := canvas ->> translate 400%Q 0%Q in
  let path := path ->> setIsVolatile true in
  let path := path ->> moveTo 20%Q 20%Q in
  let path := path ->> lineTo 50%Q 50%Q in
  let path := path ->> lineTo 68%Q 20%Q in
  let path := path ->> lineTo 68%Q 80%Q in
  let path := path ->> lineTo 50%Q 50%Q in
  let path := path ->> lineTo 20%Q 80%Q in
  let canvas := canvas ->> drawPath path paint in
  let canvas := canvas ->> restore in
  canvas.

Definition test_inversion_repeat_vertex (canvas : SkCanvas) (paint : SkPaint) : SkCanvas :=
  let path : SkPath := [] in
  let canvas := canvas ->> save in
  let canvas := canvas ->> translate 400%Q 100%Q in
  let path := path ->> setIsVolatile true in
  let path := path ->> moveTo 80%Q 50%Q in
  let path := path ->> lineTo 40%Q 80%Q in
  let path := path ->> lineTo 60%Q 20%Q in
  let path := path ->> lineTo 20%Q 20%Q in
  let path := path ->> lineTo (10483139 # 262144)%Q 80%Q in
  let path := path ->> lineTo 80%Q 50%Q in
  let canvas := canvas ->> drawPath path paint in
  let canvas := canvas ->> restore in
  canvas.

Definition test_fish (canvas : SkCanvas) (paint : SkPaint) : SkCanvas :=
  let path : SkPath := [] in
  let canvas := canvas ->> save in
  let canvas := canvas ->> translate 0%Q 100%Q in
  let path := path ->> moveTo (SkIntToScalar 20) (SkIntToScalar 20) in
  let path := path ->> lineTo (SkIntToScalar 80) (SkIntToScalar 80) in
  let path := path ->> lineTo (SkIntToScalar 70) (SkIntToScalar 50) in
  let path := path ->> lineTo (SkIntToScalar 80) (SkIntToScalar 20) in
  let path := path ->> lineTo (SkIntToScalar 20) (SkIntToScalar 80) in
  let path := path ->> lineTo (SkIntToScalar 0) (SkIntToScalar 50) in
  let canvas := canvas ->> drawPath path paint in
  let canvas := canvas ->> restore in
  canvas.

Definition test_fast_forward (canvas : SkCanvas) (paint : SkPaint) : SkCanvas :=
  let path : SkPath := [] in
  let canvas := canvas ->> save in
  let canvas := canvas ->> translate 100%Q 100%Q in
  let path := path ->> moveTo (SkIntToScalar 20) (SkIntToScalar 20) in
  let path := path ->> lineTo (SkIntToScalar 60) (SkIntToScalar 50) in
  let path := path ->> lineTo (SkIntToScalar 20) (SkIntToScalar 80) in
  let path := path ->> moveTo (SkIntToScalar 40) (SkIntToScalar 20) in
  let path := path ->> lineTo (SkIntToScalar 40) (SkIntToScalar 80) in
  let path := path ->> lineTo (SkIntToScalar 80) (SkIntToScalar 50) in
  let canvas := canvas ->> drawPath path paint in
  let canvas := canvas ->> restore in
  canvas.

Definition test_hole (canvas : SkCanvas) (paint : SkPaint) : SkCanvas :=
  let path : SkPath := [] in
  let canvas := canvas ->> save in
  let canvas := canvas ->> translate 200%Q 100%Q in
  let path := path ->> moveTo (SkIntToScalar 20) (SkIntToScalar 20) in
  let path := path ->> lineTo (SkIntToScalar 80) (SkIntToScalar 20) in
  let path := path ->> lineTo (SkIntToScalar 80) (SkIntToScalar 80) in
  let path := path ->> lineTo (SkIntToScalar 20) (SkIntToScalar 80) in
  let path := path ->> moveTo (SkIntToScalar 30) (SkIntToScalar 30) in
  let path := path ->> lineTo (SkIntToScalar 30) (SkIntToScalar 70) in
  let path := path ->> lineTo (SkIntToScalar 70) (SkIntToScalar 70) in
  let path := path ->> lineTo (SkIntToScalar 70) (SkIntToScalar 30) in
  let canvas := canvas ->> drawPath path paint in
  let canvas := canvas ->> restore in
  canvas.

Definition test_star (canvas : SkCanvas) (paint : SkPaint) : SkCanvas :=
  let path : SkPath := [] in
  let canvas := canvas ->> save in
  let canvas := canvas ->> translate 300%Q 100%Q in
  let path := path ->> moveTo 30%Q 20%Q in
  let path := path ->> lineTo 50%Q 80%Q in
  let path := path ->> lineTo 70%Q 20%Q in
  let path := path ->> lineTo 20%Q 57%Q in
  let path := path ->> lineTo 80%Q 57%Q in
  let path := path ->> close in
  let canvas := canvas ->> drawPath path paint in
  let canvas := canvas ->> restore in
  canvas.

Definition test_twist (canvas : SkCanvas) (paint : SkPaint) : SkCanvas :=
  let path : SkPath := [] in
  let canvas := canvas ->> save in
  let path := path ->> moveTo (1 # 2)%Q 6%Q in
  let path := path ->> lineTo (3044561 # 524288)%Q (13550257 # 2097152)%Q in
  let path := path ->> lineTo (-12241867 # 4194304)%Q (736899 # 262144)%Q in
  let path := path ->> lineTo (8388607 # 16777216)%Q (-5924051 # 4194304)%Q in
  let canvas := canvas ->> translate 420%Q 220%Q in
  let canvas := canvas ->> scale 10%Q 10%Q in
  let canvas := canvas ->> drawPath path paint in
  let canvas := canvas ->> restore in
  canvas.

Definition test_stairstep (canvas : SkCanvas) (paint : SkPaint) : SkCanvas :=
  let path : SkPath := [] in
  let canvas := canvas ->> save in
  let canvas := canvas ->> translate 0%Q 200%Q in
  let path := path ->> moveTo (SkIntToScalar 50) (SkIntToScalar 50) in
  let path := path ->> lineTo (SkIntToScalar 50) (SkIntToScalar 20) in
  let path := path ->> lineTo (SkIntToScalar 80) (SkIntToScalar 20) in
  let path := path ->> lineTo (SkIntToScalar 50) (SkIntToScalar 50) in
  let path := path ->> lineTo (SkIntToScalar 20) (SkIntToScalar 50) in
  let path := path ->> lineTo (SkIntToScalar 20) (SkIntToScalar 80) in
  let canvas := canvas ->> drawPath path paint in
  let canvas := canvas ->> restore in
  canvas.

Definition test_stairstep2 (canvas : SkCanvas) (paint : SkPaint) : SkCanvas :=
  let path : SkPath := [] in
  let canvas := canvas ->> save in
  let canvas := canvas ->> translate 100%Q 200%Q in
  let path := path ->> moveTo 20%Q 60%Q in
  let path := path ->> lineTo 35%Q 80%Q in
  let path := path ->> lineTo 50%Q 60%Q in
  let path := path ->> lineTo 65%Q 80%Q in
  let path := path ->> lineTo 80%Q 60%Q in
  let canvas := canvas ->> drawPath path paint in
  let canvas := canvas ->> restore in
  canvas.

Definition test_overlapping (canvas : SkCanvas) (paint : SkPaint) : SkCanvas :=
  let path : SkPath := [] in
  let canvas := canvas ->> save in
  let canvas := canvas ->> translate 200%Q 200%Q in
  let path := path ->> moveTo (SkIntToScalar 20) (SkIntToScalar 80) in
  let path := path ->> lineTo (SkIntToScalar 80) (SkIntToScalar 80) in
  let path := path ->> lineTo (SkIntToScalar 80) (SkIntToScalar 20) in
  let path := path ->> lineTo (SkIntToScalar 80) (SkIntToScalar 30) in
  let canvas := canvas ->> drawPath path paint in
  let canvas := canvas ->> restore in
  canvas.

Definition test_partners (canvas : SkCanvas) (paint : SkPaint) : SkCanvas :=
  let path : SkPath := [] in
  let canvas := canvas ->> save in
  let canvas := canvas ->> translate 300%Q 200%Q in
  let path := path ->> moveTo 20%Q 80%Q in
  let path := path ->> lineTo 80%Q 80%Q in
  let path := path ->> lineTo 80%Q 20%Q in
  let path := path ->> lineTo 20%Q 20%Q in
  let path := path ->> moveTo 30%Q 30%Q in
  let path := path ->> lineTo 45%Q 50%Q in
  let path := path ->> lineTo 30%Q 70%Q in
  let path := path ->> moveTo 70%Q 30%Q in
  let path := path ->> lineTo 70%Q 70%Q in
  let path := path ->> lineTo 55%Q 50%Q in
  let canvas := canvas ->> drawPath path paint in
  let canvas := canvas ->> restore in
  canvas.

Definition test_winding_merged_to_zero (canvas : SkCanvas) (paint : SkPaint) : SkCanvas :=
  let path : SkPath := [] in
  let canvas := canvas ->> save in
  let canvas := canvas ->> translate 400%Q 350%Q in
  let path := path ->> moveTo 20%Q 80%Q in
  let path := path ->> moveTo 70%Q (-8796093 # 8796093022208)%Q in
  let path := path ->> lineTo 70%Q 0%Q in
  let path := path ->> lineTo 60%Q (-30)%Q in
  let path := path ->> lineTo 40%Q 20%Q in
  let path := path ->> moveTo 50%Q 50%Q in
  let path := path ->> lineTo 50%Q (-50)%Q in
  let path := path ->> lineTo 10%Q 50%Q in
  let canvas := canvas ->> drawPath path paint in
  let canvas := canvas ->> restore in
  canvas.

Definition test_monotone_1 (canvas : SkCanvas) (paint : SkPaint) : SkCanvas :=
  let path : SkPath := [] in
  let canvas := canvas ->> save in
  let canvas := canvas ->> translate 0%Q 300%Q in
  let path := path ->> moveTo (SkIntToScalar 20) (SkIntToScalar 20) in
  let path := path ->> quadTo (SkIntToScalar 20) (SkIntToScalar 50) (SkIntToScalar 80) (SkIntToScalar 50) in
  let path := path ->> quadTo (SkIntToScalar 20) (SkIntToScalar 50) (SkIntToScalar 20) (SkIntToScalar 80) in
  let canvas := canvas ->> drawPath path paint in
  let canvas := canvas ->> restore in
  canvas.

Definition test_monotone_2 (canvas : SkCanvas) (paint : SkPaint) : SkCanvas :=
  let path : SkPath := [] in
  let canvas := canvas ->> save in
  let canvas := canvas ->> translate 100%Q 300%Q in
  let path := path ->> moveTo (SkIntToScalar 20) (SkIntToScalar 20) in
  let path := path ->> lineTo (SkIntToScalar 80) (SkIntToScalar 30) in
  let path := path ->> quadTo (SkIntToScalar 20) (SkIntToScalar 20) (SkIntToScalar 20) (SkIntToScalar 80) in
  let canvas := canvas ->> drawPath path paint in
  let canvas := canvas ->> restore in
  canvas.

Definition test_monotone_3 (canvas : SkCanvas) (paint : SkPaint) : SkCanvas :=
  let path : SkPath := [] in
  let canvas := canvas ->> save in
  let canvas := canvas ->> translate 200%Q 300%Q in
  let path := path ->> moveTo (SkIntToScalar 20) (SkIntToScalar 80) in
  let path := path ->> lineTo (SkIntToScalar 80) (SkIntToScalar 70) in
  let path := path ->> quadTo (SkIntToScalar 20) (SkIntToScalar 80) (SkIntToScalar 20) (SkIntToScalar 20) in
  let canvas := canvas ->> drawPath path paint in
  let canvas := canvas ->> restore in
  canvas.

Definition test_monotone_4 (canvas : SkCanvas) (paint : SkPaint) : SkCanvas :=
  let path : SkPath := [] in
  let canvas := canvas ->> save in
  let canvas := canvas ->> translate 300%Q 300%Q in
  let path := path ->> moveTo 80%Q 25%Q in
  let path := path ->> lineTo 50%Q 39%Q in
  let path := path ->> lineTo 20%Q 25%Q in
  let path := path ->> lineTo 40%Q 45%Q in
  let path := path ->> lineTo 70%Q 50%Q in
  let path := path ->> lineTo 80%Q 80%Q in
  let canvas := canvas ->> drawPath path paint in
  let canvas := canvas ->> restore in
  canvas.

Definition test_monotone_5 (canvas : SkCanvas) (paint : SkPaint) : SkCanvas :=
  let path : SkPath := [] in
  let canvas := canvas ->> save in
  let canvas := canvas ->> translate 0%Q 400%Q in
  let path := path ->> moveTo 50%Q 20%Q in
  let path := path ->> lineTo 80%Q 80%Q in
  let path := path ->> lineTo 50%Q 50%Q in
  let path := path ->> lineTo 20%Q 80%Q in
  let canvas := canvas ->> drawPath path paint in
  let canvas := canvas ->> restore in
  canvas.

Definition test_degenerate (canvas : SkCanvas) (paint : SkPaint) : SkCanvas :=
  let path : SkPath := [] in
  let canvas := canvas ->> save in
  let canvas := canvas ->> translate 100%Q 400%Q in
  let path := path ->> moveTo 50%Q 20%Q in
  let path := path ->> lineTo 70%Q 30%Q in
  let path := path ->> lineTo 20%Q 50%Q in
  let path := path ->> moveTo 50%Q 20%Q in
  let path := path ->> lineTo 80%Q 80%Q in
  let path := path ->> lineTo 50%Q 80%Q in
  let canvas := canvas ->> drawPath path paint in
  let canvas := canvas ->> restore in
  canvas.

Definition test_coincident_edge (canvas : SkCanvas) (paint : SkPaint) : SkCanvas :=
  let path : SkPath := [] in
  let canvas := canvas ->> save in
  let canvas := canvas ->> translate 200%Q 400%Q in
  let path := path ->> moveTo 80%Q 20%Q in
  let path := path ->> lineTo 80%Q 80%Q in
  let path := path ->> lineTo 20%Q 80%Q in
  let path := path ->> moveTo 20%Q 20%Q in
  let path := path ->> lineTo 80%Q 80%Q in
  let path := path ->> lineTo 20%Q 80%Q in
  let canvas := canvas ->> drawPath path paint in
  let canvas := canvas ->> restore in
  canvas.

Definition test_bowtie_coincident_triangle (canvas : SkCanvas) (paint : SkPaint) : SkCanvas :=
  let path : SkPath := [] in
  let canvas := canvas ->> save in
  let canvas := canvas ->> translate 300%Q 400%Q in
  let path := path ->> moveTo (SkIntToScalar 20) (SkIntToScalar 20) in
  let path := path ->> lineTo (SkIntToScalar 80) (SkIntToScalar 80) in
  let path := path ->> lineTo (SkIntToScalar 80) (SkIntToScalar 20) in
  let path := path ->> lineTo (SkIntToScalar 20) (SkIntToScalar 80) in
  let path := path ->> moveTo (SkIntToScalar 50) (SkIntToScalar 50) in
  let path := path ->> lineTo (SkIntToScalar 80) (SkIntToScalar 20) in
  let path := path ->> lineTo (SkIntToScalar 80) (SkIntToScalar 80) in
  let canvas := canvas ->> drawPath path paint in
  let canvas := canvas ->> restore in
  canvas.

Definition test_coincident_edges_1 (canvas : SkCanvas) (paint : SkPaint) : SkCanvas :=
  let path : SkPath := [] in
  let canvas := canvas ->> save in
  let canvas := canvas ->> translate 0%Q 500%Q in
  let path := path ->> moveTo (SkIntToScalar 20) (SkIntToScalar 20) in
  let path := path ->> lineTo (SkIntToScalar 80) (SkIntToScalar 80) in
  let path := path ->> lineTo (SkIntToScalar 20) (SkIntToScalar 80) in
  let path := path ->> moveTo (SkIntToScalar 20) (SkIntToScalar 20) in
  let path := path ->> lineTo (SkIntToScalar 50) (SkIntToScalar 50) in
  let path := path ->> lineTo (SkIntToScalar 20) (SkIntToScalar 50) in
  let canvas := canvas ->> drawPath path paint in
  let canvas := canvas ->> restore in
  canvas.

Definition test_coincident_edges_2 (canvas : SkCanvas) (paint : SkPaint) : SkCanvas :=
  let path : SkPath := [] in
  let canvas := canvas ->> save in
  let canvas := canvas ->> translate 100%Q 500%Q in
  let path := path ->> moveTo (SkIntToScalar 20) (SkIntToScalar 20) in
  let path := path ->> lineTo (SkIntToScalar 50) (SkIntToScalar 50) in
  let path := path ->> lineTo (SkIntToScalar 20) (SkIntToScalar 50) in
  let path := path ->> moveTo (SkIntToScalar 20) (SkIntToScalar 20) in
  let path := path ->> lineTo (SkIntToScalar 80) (SkIntToScalar 80) in
  let path := path ->> lineTo (SkIntToScalar 20) (SkIntToScalar 80) in
  let canvas := canvas ->> drawPath path paint in
  let canvas := canvas ->> restore in
  canvas.

Definition test_coincident_edges_3 (canvas : SkCanvas) (paint : SkPaint) : SkCanvas :=
  let path : SkPath := [] in
  let canvas := canvas ->> save in
  let canvas := canvas ->> translate 200%Q 500%Q in
  let path := path ->> moveTo (SkIntToScalar 20) (SkIntToScalar 80) in
  let path := path ->> lineTo (SkIntToScalar 20) (SkIntToScalar 50) in
  let path := path ->> lineTo (SkIntToScalar 50) (SkIntToScalar 50) in
  let path := path ->> moveTo (SkIntToScalar 20) (SkIntToScalar 80) in
  let path := path ->> lineTo (SkIntToScalar 20) (SkIntToScalar 20) in
  let path := path ->> lineTo (SkIntToScalar 80) (SkIntToScalar 20) in
  let canvas := canvas ->> drawPath path paint in
  let canvas := canvas ->> restore in
  canvas.

Definition test_coincident_edges_4 (canvas : SkCanvas) (paint : SkPaint) : SkCanvas :=
  let path : SkPath := [] in
  let canvas := canvas ->> save in
  let canvas := canvas ->> translate 300%Q 500%Q in
  let path := path ->> moveTo (SkIntToScalar 20) (SkIntToScalar 80) in
  let path := path ->> lineTo (SkIntToScalar 20) (SkIntToScalar 20) in
  let path := path ->> lineTo (SkIntToScalar 80) (SkIntToScalar 20) in
  let path := path ->> moveTo (SkIntToScalar 20) (SkIntToScalar 80) in
  let path := path ->> lineTo (SkIntToScalar 20) (SkIntToScalar 50) in
  let path := path ->> lineTo (SkIntToScalar 50) (SkIntToScalar 50) in
  let canvas := canvas ->> drawPath path paint in
  let canvas := canvas ->> restore in
  canvas.


(** [DEF_SIMPLE_GM(concavepaths, canvas, 500, 600)]: the size of the scene
    and its drawing function. *)
Definition concavepaths_size : Z * Z := (500, 600).

Definition concavepaths (canvas : SkCanvas) : SkCanvas :=
  let paint : SkPaint := [] in
  let paint := paint ->> setAntiAlias true in
  let paint := paint ->> setStyle kFill_Style in
  let canvas := test_concave canvas paint in
  let canvas := test_reverse_concave canvas paint in
  let canvas := test_bowtie canvas paint in
  let canvas := test_fake_bowtie canvas paint in
  let canvas := test_intruding_vertex canvas paint in
  let canvas := test_fish canvas paint in
  let canvas := test_fast_forward canvas paint in
  let canvas := test_hole canvas paint in
  let canvas := test_star canvas paint in
  let canvas := test_twist canvas paint in
  let canvas := test_inversion_repeat_vertex canvas paint in
  let canvas := test_stairstep canvas paint in
  let canvas := test_stairstep2 canvas paint in
  let canvas := test_overlapping canvas paint in
  let canvas := test_partners canvas paint in
  let canvas := test_winding_merged_to_zero canvas paint in
  let canvas := test_monotone_1 canvas paint in
  let canvas := test_monotone_2 canvas paint in
  let canvas := test_monotone_3 canvas paint in
  let canvas := test_monotone_4 canvas paint in
  let canvas := test_monotone_5 canvas paint in
  let canvas := test_degenerate canvas paint in
  let canvas := test_coincident_edge canvas paint in
  let canvas := test_bowtie_coincident_triangle canvas paint in
  let canvas := test_coincident_edges_1 canvas paint in
  let canvas := test_coincident_edges_2 canvas paint in
  let canvas := test_coincident_edges_3 canvas paint in
  let canvas := test_coincident_edges_4 canvas paint in
  canvas.

(** The paint the scene hands to every test. *)
Definition gm_paint : SkPaint := ([] ->> setAntiAlias true) ->> setStyle kFill_Style.

(** The test functions, in the order in which the scene calls them. *)
Definition tests : list (SkCanvas → SkPaint → SkCanvas) :=
  [test_concave;
   test_reverse_concave;
   test_bowtie;
   test_fake_bowtie;
   test_intruding_vertex;
   test_fish;
   test_fast_forward;
   test_hole;
   test_star;
   test_twist;
   test_inversion_repeat_vertex;
   test_stairstep;
   test_stairstep2;
   test_overlapping;
   test_partners;
   test_winding_merged_to_zero;
   test_monotone_1;
   test_monotone_2;
   test_monotone_3;
   test_monotone_4;
   test_monotone_5;
   test_degenerate;
   test_coincident_edge;
   test_bowtie_coincident_triangle;
   test_coincident_edges_1;
   test_coincident_edges_2;
   test_coincident_edges_3;
   test_coincident_edges_4].

(** ** Reading a canvas log *)

(** The depth of the save stack after the calls, starting from depth [d];
    [None] when a [restore] comes with no [save] left to undo. *)
Fixpoint save_depth (d : nat) (cs : SkCanvas) : option nat :=
  match cs with
  | [] => Some d
  | save :: cs' => save_depth (S d) cs'
  | restore :: cs' =>
      match d with
      | O => None
      | S d' => save_depth d' cs'
      end
  | _ :: cs' => save_depth d cs'
  end.

(** The calls undo every [save] of their own and no other. *)
Definition balanced (cs : SkCanvas) : Prop := save_depth 0 cs = Some 0%nat.

(** The transforms made outside every save/restore pair of the calls
    themselves, which therefore outlive them. *)
Fixpoint lasting_transforms (d : nat) (cs : SkCanvas) : list SkCanvasCall :=
  match cs with
  | [] => []
  | save :: cs' => lasting_transforms (S d) cs'
  | restore :: cs' => lasting_transforms (pred d) cs'
  | translate dx dy :: cs' =>
      match d with
      | O => translate dx dy :: lasting_transforms d cs'
      | S _ => lasting_transforms d cs'
      end
  | scale sx sy :: cs' =>
      match d with
      | O => scale sx sy :: lasting_transforms d cs'
      | S _ => lasting_transforms d cs'
      end
  | drawPath _ _ :: cs' => lasting_transforms d cs'
  end.

Definition is_drawPath (c : SkCanvasCall) : bool :=
  match c with
  | drawPath _ _ => true
  | _ => false
  end.

(** The draw calls of a log, in order. *)
Definition draws (cs : SkCanvas) : list SkCanvasCall := List.filter is_drawPath cs.

End ConcavePaths.

(** * Lemmas *)

(** ** The table *)

Lemma table_find_Some h t key p :
  table_find h t key = Some p → p ∈ t ∧ entryKey h p = Some key.
Proof.
  induction t as [|q t IH]; simpl; [done|].
  destruct (decide (entryKey h q = Some key)) as [Hq|Hq].
  - intros [= ->]. split; [apply list_elem_of_here | done].
  - intros Hf. destruct (IH Hf) as [Hin Hk]. split; [by apply list_elem_of_further | done].
Qed.

Lemma table_find_None h t key :
  table_find h t key = None ↔ ∀ p, p ∈ t → entryKey h p ≠ Some key.
Proof.
  induction t as [|q t IH]; simpl.
  - split; [|done]. intros _ p Hp. by apply not_elem_of_nil in Hp.
  - destruct (decide (entryKey h q = Some key)) as [Hq|Hq].
    + split; [done|]. intros Hall. destruct (Hall q); [apply list_elem_of_here | done].
    + rewrite IH. split.
      * intros Hall p Hp. apply elem_of_cons in Hp as [->|Hp]; [done | by apply Hall].
      * intros Hall p Hp. apply Hall. by apply list_elem_of_further.
Qed.


Lemma table_find_ext h h' t key :
  (∀ p, p ∈ t → entryKey h' p = entryKey h p) →
  table_find h' t key = table_find h t key.
Proof.
  induction t as [|q t IH]; simpl; [done|]. intros Hext.
  rewrite (Hext q) by apply list_elem_of_here.
  rewrite IH; [done|]. intros p Hp. apply Hext. by apply list_elem_of_further.
Qed.

(** Lookups agree when the two stores file the same entries under the key. *)
Lemma table_find_agree h h' t key :
  (∀ r, r ∈ t → entryKey h' r = Some key ↔ entryKey h r = Some key) →
  table_find h' t key = table_find h t key.
Proof.
  induction t as [|q t IH]; simpl; [done|]. intros Hag.
  assert (Hq : entryKey h' q = Some key ↔ entryKey h q = Some key)
    by apply Hag, list_elem_of_here.
  rewrite IH by (intros r Hr; by apply Hag, list_elem_of_further).
  destruct (decide (entryKey h' q = Some key)) as [H'|H'];
    destruct (decide (entryKey h q = Some key)) as [H|H]; try done.
  - by destruct H; apply Hq.
  - by destruct H'; apply Hq.
Qed.

Lemma table_remove_subseteq p t q : q ∈ table_remove p t → q ∈ t.
Proof.
  induction t as [|r t IH]; simpl; [done|].
  destruct (decide (r = p)).
  - apply list_elem_of_further.
  - intros Hq. apply elem_of_cons in Hq as [->|Hq].
    + apply list_elem_of_here.
    + apply list_elem_of_further. by apply IH.
Qed.

Lemma table_remove_other p t q : q ≠ p → q ∈ t → q ∈ table_remove p t.
Proof.
  intros Hne. induction t as [|r t IH]; simpl; [done|].
  intros Hq. apply elem_of_cons in Hq as [->|Hq].
  - rewrite decide_False by done. apply list_elem_of_here.
  - destruct (decide (r = p)); [done|]. apply list_elem_of_further. by apply IH.
Qed.

Lemma table_remove_NoDup p t : NoDup t → NoDup (table_remove p t).
Proof.
  induction 1 as [|r t Hr Hnd IH]; simpl; [constructor|].
  destruct (decide (r = p)); [done|].
  constructor; [|done]. intros Hin. apply Hr. by apply table_remove_subseteq in Hin.
Qed.

Lemma table_remove_gone p t : NoDup t → p ∉ table_remove p t.
Proof.
  induction 1 as [|r t Hr Hnd IH]; simpl.
  - apply not_elem_of_nil.
  - destruct (decide (r = p)) as [->|Hne]; [done|].
    intros Hin. apply elem_of_cons in Hin as [->|Hin]; [done | by apply IH].
Qed.

Lemma table_remove_absent p t : p ∉ t → table_remove p t = t.
Proof.
  induction t as [|r t IH]; simpl; [done|].
  intros Hp. apply not_elem_of_cons in Hp as [Hne Hp].
  rewrite decide_False by done. by rewrite IH.
Qed.

Lemma entryKey_insert h p x q :
  entryKey (<[p := x]> h) q = if decide (p = q) then getUniqueKey x else entryKey h q.
Proof.
  unfold entryKey. destruct (decide (p = q)) as [->|Hne].
  - by rewrite lookup_insert_eq.
  - by rewrite lookup_insert_ne.
Qed.

Lemma entryKey_delete h p q :
  entryKey (delete p h) q = if decide (p = q) then None else entryKey h q.
Proof.
  unfold entryKey. destruct (decide (p = q)) as [->|Hne].
  - by rewrite lookup_delete_eq.
  - by rewrite lookup_delete_ne.
Qed.

Lemma entryKey_lookup h p px : h !! p = Some px → entryKey h p = getUniqueKey px.
Proof. unfold entryKey. by intros ->. Qed.

Lemma entryKey_fresh h q : is_Some (entryKey h q) → q ≠ fresh (dom h).
Proof.
  intros [k Hk] ->. unfold entryKey in Hk.
  destruct (h !! fresh (dom h)) as [px|] eqn:Hl; [|done].
  apply (is_fresh (dom h)). apply elem_of_dom. by exists px.
Qed.

(** ** Soundness of the table is kept by every operation *)

Lemma entries_sound_same_keys t h h' :
  (∀ q, q ∈ t → entryKey h' q = entryKey h q) → entries_sound t h → entries_sound t h'.
Proof.
  intros Hk [Hnd Hs]. split; [done|]. intros q Hq. rewrite Hk by done. by apply Hs.
Qed.

Lemma entries_unique_shrink t t' h h' :
  (∀ q, q ∈ t' → q ∈ t) →
  (∀ q key, q ∈ t' → entryKey h' q = Some key → entryKey h q = Some key) →
  entries_unique t h → entries_unique t' h'.
Proof.
  intros Hsub Hk Hu p q key Hp Hq Hpk Hqk.
  apply (Hu p q key); [by apply Hsub | by apply Hsub | by apply Hk | by apply Hk].
Qed.

Lemma entries_sound_fresh_key t h px q :
  entries_sound t h → q ∈ t → entryKey (<[fresh (dom h) := px]> h) q = entryKey h q.
Proof.
  intros [_ Hs] Hq. rewrite entryKey_insert, decide_False; [done|].
  intros Heq. symmetry in Heq. revert Heq. by apply entryKey_fresh, Hs.
Qed.

Lemma entries_sound_register t h p px key :
  entries_sound t h → h !! p = Some px → getUniqueKey px = None →
  entries_sound (p :: t) (<[p := setUniqueKey (Some key) px]> h).
Proof.
  intros [Hnd Hs] Hp Hk.
  assert (Hnotin : p ∉ t).
  { intros Hin. destruct (Hs p Hin) as [k Hpk].
    rewrite (entryKey_lookup _ _ _ Hp), Hk in Hpk. done. }
  split; [by constructor|]. intros q Hq. rewrite entryKey_insert.
  destruct (decide (p = q)); [by eexists|].
  apply elem_of_cons in Hq as [->|Hq]; [done | by apply Hs].
Qed.

Lemma entries_unique_register t h p px key :
  entries_unique t h → h !! p = Some px → getUniqueKey px = None →
  table_find h t key = None →
  entries_unique (p :: t) (<[p := setUniqueKey (Some key) px]> h).
Proof.
  intros Hu Hp Hk Hf. rewrite table_find_None in Hf.
  assert (Hold : ∀ r k, r ≠ p → entryKey (<[p := setUniqueKey (Some key) px]> h) r = Some k →
                        entryKey h r = Some k).
  { intros r k Hne. by rewrite entryKey_insert, decide_False. }
  assert (Hnew : ∀ k, entryKey (<[p := setUniqueKey (Some key) px]> h) p = Some k → k = key).
  { intros k. rewrite entryKey_insert, decide_True by done. simpl. by intros [= <-]. }
  assert (Hin : ∀ r k, r ∈ p :: t → r ≠ p →
                       entryKey (<[p := setUniqueKey (Some key) px]> h) r = Some k →
                       r ∈ t ∧ entryKey h r = Some k).
  { intros r k Hr Hne Hrk. apply elem_of_cons in Hr as [->|Hr]; [done|].
    split; [done | by apply Hold]. }
  intros q r k Hq Hr Hqk Hrk.
  destruct (decide (q = p)) as [->|Hqp]; destruct (decide (r = p)) as [->|Hrp]; [done|..].
  - apply Hnew in Hqk as ->. destruct (Hin r key Hr Hrp Hrk) as [Hrt Hrk'].
    by destruct (Hf r Hrt).
  - apply Hnew in Hrk as ->. destruct (Hin q key Hq Hqp Hqk) as [Hqt Hqk'].
    by destruct (Hf q Hqt).
  - destruct (Hin q k Hq Hqp Hqk) as [Hqt Hqk'], (Hin r k Hr Hrp Hrk) as [Hrt Hrk'].
    by apply (Hu q r k).
Qed.

Lemma entries_sound_unregister t h p px :
  entries_sound t h → entries_sound (table_remove p t) (<[p := setUniqueKey None px]> h).
Proof.
  intros [Hnd Hs]. pose proof (table_remove_gone p t Hnd) as Hgone.
  split; [by apply table_remove_NoDup|]. intros q Hq.
  rewrite entryKey_insert, decide_False by (by intros ->).
  by apply Hs, (table_remove_subseteq p).
Qed.

Lemma entries_unique_unregister t h p px :
  entries_sound t h → entries_unique t h →
  entries_unique (table_remove p t) (<[p := setUniqueKey None px]> h).
Proof.
  intros [Hnd _]. pose proof (table_remove_gone p t Hnd) as Hgone.
  apply entries_unique_shrink; [apply table_remove_subseteq|].
  intros q key Hq. by rewrite entryKey_insert, decide_False by (by intros ->).
Qed.

Lemma entries_sound_release t h p px :
  entries_sound t h → h !! p = Some px →
  entries_sound (match getUniqueKey px with
                 | Some _ => table_remove p t
                 | None => t
                 end) (delete p h).
Proof.
  intros [Hnd Hs] Hp.
  assert (Hgone : p ∉ match getUniqueKey px with
                      | Some _ => table_remove p t
                      | None => t
                      end).
  { destruct (getUniqueKey px) eqn:Hk; [by apply table_remove_gone|].
    intros Hin. destruct (Hs p Hin) as [k Hpk].
    rewrite (entryKey_lookup _ _ _ Hp), Hk in Hpk. done. }
  assert (Hsub : ∀ q, q ∈ match getUniqueKey px with
                          | Some _ => table_remove p t
                          | None => t
                          end → q ∈ t).
  { destruct (getUniqueKey px); [apply table_remove_subseteq | done]. }
  split.
  - destruct (getUniqueKey px); [by apply table_remove_NoDup | done].
  - intros q Hq. rewrite entryKey_delete, decide_False by (by intros ->).
    by apply Hs, Hsub.
Qed.

Lemma entries_unique_release t h p px :
  entries_unique t h →
  entries_unique (match getUniqueKey px with
                  | Some _ => table_remove p t
                  | None => t
                  end) (delete p h).
Proof.
  apply entries_unique_shrink.
  - destruct (getUniqueKey px); [apply table_remove_subseteq | done].
  - intros q key _. rewrite entryKey_delete. by destruct (decide (p = q)).
Qed.

Lemma table_sound_initial rp rc cp surfs : table_sound (initial rp rc cp surfs).
Proof.
  split; [constructor|]. intros p Hp. by apply not_elem_of_nil in Hp.
Qed.

Lemma keys_unique_initial rp rc cp surfs : keys_unique (initial rp rc cp surfs).
Proof. intros p q key Hp. by apply not_elem_of_nil in Hp. Qed.

Lemma table_sound_assign key p c :
  table_sound c → table_sound (after (assignUniqueKeyToProxy key p c)).
Proof.
  intros Hs. unfold assignUniqueKeyToProxy.
  destruct (isAbandoned c); [done|].
  destruct (proxies c !! p) as [px|] eqn:Hp; [|done].
  destruct (getUniqueKey px) eqn:Hk; [done|].
  destruct (table_find (proxies c) (table c) key); [done|].
  by apply entries_sound_register.
Qed.

Lemma keys_unique_assign key p c :
  keys_unique c → keys_unique (after (assignUniqueKeyToProxy key p c)).
Proof.
  intros Hu. unfold assignUniqueKeyToProxy.
  destruct (isAbandoned c); [done|].
  destruct (proxies c !! p) as [px|] eqn:Hp; [|done].
  destruct (getUniqueKey px) eqn:Hk; [done|].
  destruct (table_find (proxies c) (table c) key) eqn:Hf; [done|].
  by apply entries_unique_register.
Qed.

Lemma table_sound_adopt p s c :
  table_sound c → table_sound (after (adoptUniqueKeyFromSurface p s c)).
Proof.
  intros Hs. unfold adoptUniqueKeyFromSurface.
  destruct (isAbandoned c); [done|].
  destruct (surfaces c !! s ≫= surfUniqueKey) as [key|]; [|done].
  destruct (proxies c !! p) as [px|] eqn:Hp; [|done].
  destruct (getUniqueKey px) eqn:Hk; [done|].
  by apply entries_sound_register.
Qed.

Lemma keys_unique_adopt p s c :
  adopt_in_contract (OpAdoptUniqueKeyFromSurface p s) c →
  keys_unique c → keys_unique (after (adoptUniqueKeyFromSurface p s c)).
Proof.
  intros Hc Hu. unfold adoptUniqueKeyFromSurface.
  destruct (isAbandoned c); [done|].
  destruct (surfaces c !! s ≫= surfUniqueKey) as [key|] eqn:Hkey; [|done].
  destruct (proxies c !! p) as [px|] eqn:Hp; [|done].
  destruct (getUniqueKey px) eqn:Hk; [done|].
  apply entries_unique_register; [done..|]. by apply Hc.
Qed.

Lemma table_sound_processInvalid3 key p inv c :
  table_sound c → table_sound (after (processInvalidProxyUniqueKey3 key p inv c)).
Proof.
  intros Hs. unfold processInvalidProxyUniqueKey3.
  destruct (isAbandoned c); [done|].
  destruct (proxies c !! p) as [px|]; [|done].
  destruct (decide (getUniqueKey px = Some key)); [|done].
  by apply entries_sound_unregister.
Qed.

Lemma keys_unique_processInvalid3 key p inv c :
  table_sound c → keys_unique c →
  keys_unique (after (processInvalidProxyUniqueKey3 key p inv c)).
Proof.
  intros Hs Hu. unfold processInvalidProxyUniqueKey3.
  destruct (isAbandoned c); [done|].
  destruct (proxies c !! p) as [px|]; [|done].
  destruct (decide (getUniqueKey px = Some key)); [|done].
  by apply entries_unique_unregister.
Qed.

Lemma table_sound_createProxy desc origin mip fit budgeted flags c :
  table_sound c → table_sound (after (createProxy desc origin mip fit budgeted flags c)).
Proof.
  intros Hs. unfold createProxy. destruct (isAbandoned c); [done|].
  apply (entries_sound_same_keys _ (proxies c)); [|done].
  intros q Hq. by apply (entries_sound_fresh_key (table c)).
Qed.

Lemma keys_unique_createProxy desc origin mip fit budgeted flags c :
  table_sound c → keys_unique c →
  keys_unique (after (createProxy desc origin mip fit budgeted flags c)).
Proof.
  intros Hs Hu. unfold createProxy. destruct (isAbandoned c); [done|].
  apply (entries_unique_shrink (table c) _ (proxies c)); [done| |done].
  intros q key Hq. simpl. by rewrite (entries_sound_fresh_key _ _ _ _ Hs Hq).
Qed.

Lemma table_sound_createWrapped s surf origin c :
  table_sound c → table_sound (after (createWrapped s surf origin c)).
Proof.
  intros Hs. unfold createWrapped. destruct (isAbandoned c); [done|].
  apply (entries_sound_same_keys _ (proxies c)); [|done].
  intros q Hq. by apply (entries_sound_fresh_key (table c)).
Qed.

Lemma keys_unique_createWrapped s surf origin c :
  table_sound c → keys_unique c → keys_unique (after (createWrapped s surf origin c)).
Proof.
  intros Hs Hu. unfold createWrapped. destruct (isAbandoned c); [done|].
  apply (entries_unique_shrink (table c) _ (proxies c)); [done| |done].
  intros q key Hq. simpl. by rewrite (entries_sound_fresh_key _ _ _ _ Hs Hq).
Qed.

(** Wrapping a resource leaves every lookup and the surfaces as they
    were. *)
Lemma createWrapped_frame s surf origin c key :
  table_find (proxies (after (createWrapped s surf origin c)))
             (table (after (createWrapped s surf origin c))) key
  = table_find (proxies c) (table c) key
  ∧ surfaces (after (createWrapped s surf origin c)) = surfaces c.
Proof.
  unfold createWrapped. destruct (isAbandoned c); [done|]. split; [|done].
  apply table_find_agree. intros r _. simpl. rewrite entryKey_insert.
  destruct (decide (fresh (dom (proxies c)) = r)) as [<-|]; [|done].
  assert (Hnone : proxies c !! fresh (dom (proxies c)) = None)
    by apply not_elem_of_dom, is_fresh.
  unfold entryKey. by rewrite Hnone.
Qed.

Lemma findSurfaceByUniqueKey_Some surfs key s surf :
  findSurfaceByUniqueKey surfs key = Some (s, surf) →
  surfs !! s = Some surf ∧ surfUniqueKey surf = Some key.
Proof.
  unfold findSurfaceByUniqueKey. intros Hf.
  apply find_some in Hf as [Hin Hk]. simpl in Hk.
  apply bool_decide_eq_true in Hk. split; [|done].
  apply elem_of_map_to_list. by apply list_elem_of_In.
Qed.

Lemma table_sound_findOrCreate key origin c :
  table_sound c → table_sound (after (findOrCreateProxyByUniqueKey key origin c)).
Proof.
  intros Hs. unfold findOrCreateProxyByUniqueKey.
  destruct (isAbandoned c); [done|].
  destruct (table_find (proxies c) (table c) key); [done|].
  destruct (SkToBool _ && SkToBool _); [|done].
  destruct (findSurfaceByUniqueKey (surfaces c) key) as [[s surf]|]; [|done].
  pose proof (table_sound_createWrapped s surf origin c Hs) as Hw.
  simpl. destruct (result (createWrapped s surf origin c)); simpl; [|done].
  by apply table_sound_adopt.
Qed.

Lemma keys_unique_findOrCreate key origin c :
  table_sound c → keys_unique c →
  keys_unique (after (findOrCreateProxyByUniqueKey key origin c)).
Proof.
  intros Hs Hu. unfold findOrCreateProxyByUniqueKey.
  destruct (isAbandoned c); [done|].
  destruct (table_find (proxies c) (table c) key) eqn:Hf; [done|].
  destruct (SkToBool _ && SkToBool _); [|done].
  destruct (findSurfaceByUniqueKey (surfaces c) key) as [[s surf]|] eqn:Hfs; [|done].
  apply findSurfaceByUniqueKey_Some in Hfs as [Hsurf Hkey].
  pose proof (keys_unique_createWrapped s surf origin c Hs Hu) as Hw.
  destruct (createWrapped_frame s surf origin c key) as [Hfind Hsame].
  simpl. destruct (result (createWrapped s surf origin c)) as [p|]; simpl; [|done].
  apply keys_unique_adopt; [|done].
  intros key'. rewrite Hsame, Hsurf. simpl. rewrite Hkey. intros [= <-].
  by rewrite Hfind.
Qed.

Lemma table_sound_release p c : table_sound c → table_sound (releaseProxy p c).
Proof.
  intros Hs. unfold releaseProxy.
  destruct (proxies c !! p) as [px|] eqn:Hp; [|done].
  pose proof (entries_sound_release _ _ p px Hs Hp) as Hr.
  unfold table_sound, table. simpl. by destruct (getUniqueKey px).
Qed.

Lemma keys_unique_release p c : keys_unique c → keys_unique (releaseProxy p c).
Proof.
  intros Hu. unfold releaseProxy.
  destruct (proxies c !! p) as [px|] eqn:Hp; [|done].
  pose proof (entries_unique_release _ _ p px Hu) as Hr.
  unfold keys_unique, table. simpl. by destruct (getUniqueKey px).
Qed.

Lemma instantiate_keys p s c q :
  entryKey (proxies (instantiate p s c)) q = entryKey (proxies c) q
  ∧ table (instantiate p s c) = table c.
Proof.
  unfold instantiate.
  destruct (proxies c !! p) as [px|] eqn:Hp; [|done].
  destruct (surfaces c !! s); [|done]. destruct (fTarget px); [done|].
  split; [|done]. simpl. rewrite entryKey_insert.
  destruct (decide (p = q)) as [<-|]; [|done].
  by rewrite (entryKey_lookup _ _ _ Hp).
Qed.

Lemma table_sound_run op c : table_sound c → table_sound (run op c).
Proof.
  intros Hs. destruct op; simpl.
  - by apply table_sound_assign.
  - by apply table_sound_adopt.
  - by apply table_sound_processInvalid3.
  - unfold processInvalidProxyUniqueKey.
    destruct (table_find (proxies c) (table c) key); [|done].
    by apply table_sound_processInvalid3.
  - by apply table_sound_processInvalid3.
  - unfold findProxyByUniqueKey. by destruct (isAbandoned c).
  - by apply table_sound_findOrCreate.
  - by apply table_sound_createProxy.
  - by apply table_sound_createProxy.
  - done.
  - by apply table_sound_release.
  - unfold table_sound. rewrite (proj2 (instantiate_keys p s c 0%nat)).
    apply (entries_sound_same_keys _ (proxies c)); [|done].
    intros q _. apply instantiate_keys.
  - done.
  - destruct (surfaces c !! s); [|done]. by apply table_sound_createWrapped.
Qed.

Lemma keys_unique_run op c :
  table_sound c → adopt_in_contract op c → keys_unique c → keys_unique (run op c).
Proof.
  intros Hs Hc Hu. destruct op; simpl.
  - by apply keys_unique_assign.
  - by apply keys_unique_adopt.
  - by apply keys_unique_processInvalid3.
  - unfold processInvalidProxyUniqueKey.
    destruct (table_find (proxies c) (table c) key); [|done].
    by apply keys_unique_processInvalid3.
  - by apply keys_unique_processInvalid3.
  - unfold findProxyByUniqueKey. by destruct (isAbandoned c).
  - by apply keys_unique_findOrCreate.
  - by apply keys_unique_createProxy.
  - by apply keys_unique_createProxy.
  - done.
  - by apply keys_unique_release.
  - unfold keys_unique. rewrite (proj2 (instantiate_keys p s c 0%nat)).
    apply (entries_unique_shrink (table c) _ (proxies c)); [done| |done].
    intros q key _. by rewrite (proj1 (instantiate_keys p s c q)).
  - done.
  - destruct (surfaces c !! s); [|done]. by apply keys_unique_createWrapped.
Qed.

Lemma reachable_sound c : reachable c → table_sound c.
Proof.
  induction 1 as [rp rc cp surfs|op c _ IH].
  - apply table_sound_initial.
  - by apply table_sound_run.
Qed.

Lemma in_contract_reachable c : reachable_in_contract c → reachable c.
Proof. induction 1; by constructor. Qed.

Lemma in_contract_keys_unique c : reachable_in_contract c → keys_unique c.
Proof.
  induction 1 as [rp rc cp surfs|op c Hr IH Hc].
  - apply keys_unique_initial.
  - apply keys_unique_run; [|done..]. by apply reachable_sound, in_contract_reachable.
Qed.

Lemma registry_ok_intro c : table_sound c → keys_unique c → registry_ok c.
Proof.
  intros [Hnd Hs] Hu. split; [done | exact Hu | intros _; exact Hs].
Qed.

Lemma in_contract_ok c : reachable_in_contract c → registry_ok c.
Proof.
  intros Hr. apply registry_ok_intro.
  - by apply reachable_sound, in_contract_reachable.
  - by apply in_contract_keys_unique.
Qed.

Lemma reachable_run_all ops c : reachable c → reachable (run_all ops c).
Proof.
  revert c. induction ops as [|op ops IH]; intros c Hc; simpl; [done|].
  apply IH. by constructor.
Qed.

Lemma in_contract_run_all ops c :
  Forall (λ op, ∀ c', adopt_in_contract op c') ops →
  reachable_in_contract c → reachable_in_contract (run_all ops c).
Proof.
  intros Hops. revert c. induction Hops as [|op ops Hop _ IH]; intros c Hc; simpl; [done|].
  apply IH. by constructor.
Qed.

(** ** The links to the backend *)

Lemma links_run op c : op ≠ OpAbandon → links (run op c) = links c.
Proof.
  intros Hop. destruct op; try done; simpl;
    unfold removeUniqueKeyFromProxy, processInvalidProxyUniqueKey,
      findOrCreateProxyByUniqueKey, adoptUniqueKeyFromSurface, createWrapped,
      createProxy_short, createProxy, findProxyByUniqueKey, releaseProxy, instantiate,
      processInvalidProxyUniqueKey3, assignUniqueKeyToProxy;
    repeat (case_match; simpl; try done).
Qed.

Lemma severed_if_abandoned_run op c :
  severed_if_abandoned c → severed_if_abandoned (run op c).
Proof.
  intros Hs.
  assert (op = OpAbandon ∨ op ≠ OpAbandon) as [->|Hop]
    by (destruct op; (by left) || (by right)).
  - by intros _.
  - pose proof (links_run op c Hop) as Hl. unfold links in Hl.
    injection Hl as Hrp Hrc Hab. unfold severed_if_abandoned, isAbandoned in *.
    rewrite Hrp, Hrc, Hab. done.
Qed.

Lemma reachable_severed c : reachable c → severed_if_abandoned c.
Proof.
  induction 1 as [rp rc cp surfs|op c _ IH].
  - intros Ha. done.
  - by apply severed_if_abandoned_run.
Qed.

Lemma isAbandoned_debug_severed c :
  severed_if_abandoned c → isAbandoned_debug c = Some (isAbandoned c).
Proof.
  unfold severed_if_abandoned, isAbandoned_debug, isAbandoned.
  destruct (fAbandoned (provider c)); [|done].
  intros Hs. destruct (Hs eq_refl) as [-> ->]. done.
Qed.

(** ** Calls on an abandoned Provider *)

Section Abandoned.
Variable c : Context.
Hypothesis Habandoned : isAbandoned c = true.




Lemma abandoned_processInvalidProxyUniqueKey3 key p inv :
  processInvalidProxyUniqueKey3 key p inv c = done_with () c.
Proof using Habandoned. unfold processInvalidProxyUniqueKey3. by rewrite Habandoned. Qed.

Lemma abandoned_processInvalidProxyUniqueKey key :
  processInvalidProxyUniqueKey key c = done_with () c.
Proof using Habandoned.
  unfold processInvalidProxyUniqueKey.
  destruct (table_find (proxies c) (table c) key); [|done].
  apply abandoned_processInvalidProxyUniqueKey3.
Qed.


Lemma abandoned_findOrCreateProxyByUniqueKey key origin :
  findOrCreateProxyByUniqueKey key origin c = done_with None c.
Proof using Habandoned. unfold findOrCreateProxyByUniqueKey. by rewrite Habandoned. Qed.


End Abandoned.




Lemma reachable_ctx_A : reachable ctx_A.
Proof. apply reachable_run_all, reachable_initial. Qed.

(** * The claims *)

(** C2: assigning a key to a proxy that already carries one fails: the call
    returns false and leaves the context as it was, so the proxy keeps its
    existing key and the key-to-proxy table is unchanged. *)
Theorem assign_to_keyed_proxy_fails (c : Context) (key old : GrUniqueKey)
    (p : ProxyPtr) (px : GrTextureProxy) :
  proxies c !! p = Some px → getUniqueKey px = Some old →
  result (assignUniqueKeyToProxy key p c) = false
  ∧ after (assignUniqueKeyToProxy key p c) = c
  ∧ entryKey (proxies (after (assignUniqueKeyToProxy key p c))) p = Some old
  ∧ table (after (assignUniqueKeyToProxy key p c)) = table c.
Proof.
  intros Hp Hold.
  assert (Hcall : assignUniqueKeyToProxy key p c = done_with false c).
  { unfold assignUniqueKeyToProxy. rewrite Hp, Hold. by destruct (isAbandoned c). }
  rewrite Hcall. simpl. repeat split.
  by rewrite (entryKey_lookup _ _ _ Hp).
Qed.

Lemma assign_to_keyed_proxy_fails_witness :
  result (assignUniqueKeyToProxy key2 0%nat ctx_A) = false
  ∧ after (assignUniqueKeyToProxy key2 0%nat ctx_A) = ctx_A
  ∧ entryKey (proxies (after (assignUniqueKeyToProxy key2 0%nat ctx_A))) 0%nat = Some key1
  ∧ table (after (assignUniqueKeyToProxy key2 0%nat ctx_A)) = table ctx_A.
Proof.
  apply (assign_to_keyed_proxy_fails ctx_A key2 key1 0%nat
           {| fDesc := desc_of 64 64; fOrigin := kTopLeft_GrSurfaceOrigin;
              fMipMapped := GrMipMapped_kNo; fFit := kExact; fBudgeted := SkBudgeted_kYes;
              fSurfaceFlags := GrInternalSurfaceFlags_kNone;
              fUniqueKey := Some key1; fTarget := None |});
    reflexivity.
Defined.

(** C4: [abandon] sets the resource cache pointer and the resource provider
    pointer to null and marks the Provider abandoned, so [isAbandoned]
    answers true afterwards (and its debug assertion holds); in every
    reachable context, [isAbandoned] answering true implies both pointers
    are null, and the debug assertion never fires. *)
Theorem abandon_severs_links :
  (∀ c, fResourceCache (provider (abandon c)) = nullptr
        ∧ fResourceProvider (provider (abandon c)) = nullptr
        ∧ isAbandoned (abandon c) = true
        ∧ isAbandoned_debug (abandon c) = Some true)
  ∧ (∀ c, reachable c → isAbandoned c = true →
          fResourceCache (provider c) = nullptr ∧ fResourceProvider (provider c) = nullptr)
  ∧ (∀ c, reachable c → isAbandoned_debug c = Some (isAbandoned c)).
Proof.
  split; [|split].
  - intros c. by repeat split.
  - intros c Hr. by apply reachable_severed.
  - intros c Hr. by apply isAbandoned_debug_severed, reachable_severed.
Qed.

Lemma abandon_severs_links_witness :
  reachable ctx_A_abandoned ∧ isAbandoned ctx_A_abandoned = true
  ∧ fResourceCache (provider ctx_A_abandoned) = nullptr
  ∧ fResourceProvider (provider ctx_A_abandoned) = nullptr.
Proof.
  assert (Hr : reachable ctx_A_abandoned)
    by (apply reachable_run_all, reachable_ctx_A).
  split; [exact Hr|]. split; [reflexivity|].
  destruct abandon_severs_links as (_ & Hinv & _).
  exact (Hinv ctx_A_abandoned Hr eq_refl).
Defined.

(** C7: [recordingDDL] answers true if and only if the Provider works
    without a live allocator, that is, exactly when its resource provider
    pointer is null. *)
Theorem recordingDDL_iff_no_allocator (c : Context) :
  recordingDDL c = true ↔ fResourceProvider (provider c) = nullptr.
Proof.
  unfold recordingDDL, SkToBool. rewrite negb_involutive.
  apply N.eqb_eq.
Qed.

Lemma recordingDDL_iff_no_allocator_witness :
  fResourceProvider (provider (initial nullptr 8192%N 12288%N ∅)) = nullptr
  ∧ recordingDDL (initial nullptr 8192%N 12288%N ∅) = true.
Proof.
  split; [reflexivity|].
  apply (proj2 (recordingDDL_iff_no_allocator (initial nullptr 8192%N 12288%N ∅))).
  reflexivity.
Defined.

(** C9: for every descriptor, origin, fit, budget and surface-flags argument
    the short [createProxy] overload returns exactly what the full overload
    returns when called with [GrMipMapped::kNo] in the mip-mapped position
    and the same remaining arguments, whatever the full overload does; in
    particular for the Provider's own full overload on every context. *)
Theorem createProxy_short_delegates :
  (∀ (R : Type)
     (full : GrSurfaceDesc → GrSurfaceOrigin → GrMipMapped → SkBackingFit → SkBudgeted →
             GrInternalSurfaceFlags → R)
     desc origin fit budgeted surfaceFlags,
     createProxy_short full desc origin fit budgeted surfaceFlags
     = full desc origin GrMipMapped_kNo fit budgeted surfaceFlags)
  ∧ (∀ desc origin fit budgeted surfaceFlags c,
       createProxy_short createProxy desc origin fit budgeted surfaceFlags c
       = createProxy desc origin GrMipMapped_kNo fit budgeted surfaceFlags c).
Proof. split; reflexivity. Qed.

(** C10: after [abandon], [recordingDDL] answers true: by this query an
    abandoned Provider cannot be told from one that was given no live
    allocator, such as one constructed with a null resource provider for
    deferred recording. *)
Theorem abandoned_is_recordingDDL (c : Context) :
  recordingDDL (abandon c) = true
  ∧ (∀ c', fResourceProvider (provider c') = nullptr →
           recordingDDL (abandon c) = recordingDDL c')
  ∧ (∀ resourceCache caps surfs,
       recordingDDL (abandon c) = recordingDDL (initial nullptr resourceCache caps surfs)).
Proof.
  split; [reflexivity|]. split; [|reflexivity].
  intros c' Hnull. unfold recordingDDL at 2. by rewrite Hnull.
Qed.

Lemma abandoned_is_recordingDDL_witness :
  recordingDDL (abandon ctx_A) = true
  ∧ recordingDDL ctx_A = false
  ∧ recordingDDL (abandon ctx_A) = recordingDDL (initial nullptr 8192%N 12288%N ∅).
Proof.
  destruct (abandoned_is_recordingDDL ctx_A) as (Htrue & Hsame & _).
  split; [exact Htrue|]. split; [reflexivity|].
  exact (Hsame (initial nullptr 8192%N 12288%N ∅) eq_refl).
Defined.

(** ** Backend pointers a call goes through *)


(** Whatever backend pointer a call goes through is not null. *)
Lemma derefs_non_null op c b : b ∈ run_derefs op c → backendPtr c b ≠ nullptr.
Proof.
  destruct op; simpl;
    unfold removeUniqueKeyFromProxy, processInvalidProxyUniqueKey,
      adoptUniqueKeyFromSurface, createProxy_short, createProxy, createWrapped,
      findProxyByUniqueKey, processInvalidProxyUniqueKey3, assignUniqueKeyToProxy;
    repeat (case_match; simpl); try (intros Hb; by apply not_elem_of_nil in Hb).
  unfold findOrCreateProxyByUniqueKey.
  destruct (isAbandoned c); [intros Hb; by apply not_elem_of_nil in Hb|].
  destruct (table_find _ _ _); [intros Hb; by apply not_elem_of_nil in Hb|].
  destruct (SkToBool (fResourceProvider (provider c))) eqn:Hrp;
    destruct (SkToBool (fResourceCache (provider c))) eqn:Hrc; simpl;
    try (intros Hb; by apply not_elem_of_nil in Hb).
  unfold SkToBool in Hrp, Hrc.
  apply negb_true_iff, N.eqb_neq in Hrp, Hrc.
  intros Hb. assert (Hb' : b ∈ [ResourceProviderPtr; ResourceCachePtr]).
  { destruct (findSurfaceByUniqueKey _ _) as [[s surf]|]; [|exact Hb].
    destruct (result (createWrapped s surf origin c)); exact Hb. }
  apply elem_of_cons in Hb' as [->|Hb']; [done|].
  apply elem_of_cons in Hb' as [->|Hb']; [done|].
  by apply not_elem_of_nil in Hb'.
Qed.



(** ** Removal *)

Lemma key_absent_find c key :
  key_absent c key ↔ table_find (proxies c) (table c) key = None.
Proof. unfold key_absent. by rewrite table_find_None. Qed.

Lemma processInvalidProxyUniqueKey_absent c key :
  key_absent c key → processInvalidProxyUniqueKey key c = done_with () c.
Proof.
  intros Habs. apply key_absent_find in Habs.
  unfold processInvalidProxyUniqueKey. by rewrite Habs.
Qed.

Lemma table_find_remove_other h p px key key' t :
  h !! p = Some px → getUniqueKey px = Some key → key' ≠ key →
  table_find (<[p := setUniqueKey None px]> h) (table_remove p t) key'
  = table_find h t key'.
Proof.
  intros Hp Hk Hne.
  assert (Hag : ∀ r, entryKey (<[p := setUniqueKey None px]> h) r = Some key'
                     ↔ entryKey h r = Some key').
  { intros r. rewrite entryKey_insert. destruct (decide (p = r)) as [<-|]; [|done].
    rewrite (entryKey_lookup _ _ _ Hp), Hk. simpl. split; [done|]. by intros [= ->]. }
  induction t as [|q t IH]; simpl; [done|].
  destruct (decide (q = p)) as [->|Hq].
  - rewrite decide_False.
    + apply table_find_agree. intros r _. apply Hag.
    + rewrite (entryKey_lookup _ _ _ Hp), Hk. by intros [= ->].
  - simpl. rewrite IH.
    destruct (decide (entryKey _ q = Some key')) as [H'|H'];
      destruct (decide (entryKey h q = Some key')) as [H|H]; try done.
    + by destruct H; apply Hag.
    + by destruct H'; apply Hag.
Qed.

Lemma processInvalidProxyUniqueKey_other c key key' :
  key' ≠ key →
  table_find (proxies (after (processInvalidProxyUniqueKey key c)))
             (table (after (processInvalidProxyUniqueKey key c))) key'
  = table_find (proxies c) (table c) key'.
Proof.
  intros Hne. unfold processInvalidProxyUniqueKey.
  destruct (table_find (proxies c) (table c) key) as [p|] eqn:Hf; [|done].
  apply table_find_Some in Hf as [Hin Hk].
  unfold processInvalidProxyUniqueKey3.
  destruct (isAbandoned c); [done|].
  unfold entryKey in Hk. destruct (proxies c !! p) as [px|] eqn:Hp; [|done].
  simpl in Hk. rewrite decide_True by done.
  unfold table. simpl. by apply (table_find_remove_other _ _ _ key).
Qed.

Lemma processInvalidProxyUniqueKey_erases c key :
  isAbandoned c = false → registry_ok c →
  key_absent (after (processInvalidProxyUniqueKey key c)) key.
Proof.
  intros Ha Hok. unfold processInvalidProxyUniqueKey.
  destruct (table_find (proxies c) (table c) key) as [p|] eqn:Hf.
  - apply table_find_Some in Hf as [Hin Hk].
    unfold processInvalidProxyUniqueKey3. rewrite Ha.
    pose proof Hk as Hk'. unfold entryKey in Hk'.
    destruct (proxies c !! p) as [px|] eqn:Hp; [|done].
    simpl in Hk'. rewrite decide_True by done.
    intros q Hq. unfold table in Hq. simpl in *. fold (table c) in Hq.
    assert (Hqp : q ≠ p).
    { intros ->. revert Hq. apply table_remove_gone, Hok. }
    rewrite entryKey_insert, decide_False by done.
    intros Hqk. apply Hqp. apply table_remove_subseteq in Hq.
    by apply (ok_keys c Hok q p key).
  - by apply key_absent_find.
Qed.

Lemma processInvalidProxyUniqueKey_twice c key :
  registry_ok c →
  processInvalidProxyUniqueKey key (after (processInvalidProxyUniqueKey key c))
  = done_with () (after (processInvalidProxyUniqueKey key c)).
Proof.
  intros Hok. destruct (isAbandoned c) eqn:Ha.
  - rewrite (abandoned_processInvalidProxyUniqueKey c Ha). simpl.
    apply (abandoned_processInvalidProxyUniqueKey c Ha).
  - by apply processInvalidProxyUniqueKey_absent, processInvalidProxyUniqueKey_erases.
Qed.

Lemma processInvalidProxyUniqueKey_surfaces c key :
  surfaces (after (processInvalidProxyUniqueKey key c)) = surfaces c.
Proof.
  unfold processInvalidProxyUniqueKey, processInvalidProxyUniqueKey3.
  by repeat case_match.
Qed.

(** C5: removing a key that is not present in the table is a silent no-op:
    the by-key removal returns leaving the context, and so every table
    entry, as it was.  Removing a key that is present leaves the lookups of
    all other keys as they were, and removing the same key once more changes
    nothing. *)
Theorem remove_absent_key_is_noop (c : Context) (key : GrUniqueKey) :
  (key_absent c key → processInvalidProxyUniqueKey key c = done_with () c)
  ∧ (∀ key', key' ≠ key →
       table_find (proxies (after (processInvalidProxyUniqueKey key c)))
                  (table (after (processInvalidProxyUniqueKey key c))) key'
       = table_find (proxies c) (table c) key')
  ∧ (registry_ok c →
     processInvalidProxyUniqueKey key (after (processInvalidProxyUniqueKey key c))
     = done_with () (after (processInvalidProxyUniqueKey key c))).
Proof.
  split; [apply processInvalidProxyUniqueKey_absent|].
  split; [intros key'; apply processInvalidProxyUniqueKey_other|].
  apply processInvalidProxyUniqueKey_twice.
Qed.

Lemma remove_absent_key_is_noop_witness :
  key_absent ctx_A key2
  ∧ processInvalidProxyUniqueKey key2 ctx_A = done_with () ctx_A
  ∧ table_find (proxies (after (processInvalidProxyUniqueKey key2 ctx_A)))
               (table (after (processInvalidProxyUniqueKey key2 ctx_A))) key1 = Some 0%nat.
Proof.
  assert (Habs : key_absent ctx_A key2) by (by apply key_absent_find).
  split; [exact Habs|].
  destruct (remove_absent_key_is_noop ctx_A key2) as (Hnoop & Hother & _).
  split; [exact (Hnoop Habs)|].
  rewrite (Hother key1); [reflexivity | discriminate].
Defined.

Lemma table_remove_length p t : p ∈ t → S (length (table_remove p t)) = length t.
Proof.
  induction t as [|q t IH]; simpl.
  - intros Hp. by apply not_elem_of_nil in Hp.
  - intros Hp. destruct (decide (q = p)) as [->|Hne]; [done|].
    apply elem_of_cons in Hp as [->|Hp]; [done|]. simpl. by rewrite IH.
Qed.

Lemma processInvalidProxyUniqueKey_table c key p :
  isAbandoned c = false → table_find (proxies c) (table c) key = Some p →
  table (after (processInvalidProxyUniqueKey key c)) = table_remove p (table c)
  ∧ entryKey (proxies (after (processInvalidProxyUniqueKey key c))) p = None.
Proof.
  intros Ha Hf. unfold processInvalidProxyUniqueKey. rewrite Hf.
  apply table_find_Some in Hf as [_ Hk]. unfold entryKey in Hk.
  unfold processInvalidProxyUniqueKey3. rewrite Ha.
  destruct (proxies c !! p) as [px|] eqn:Hp; [|done]. simpl in Hk.
  rewrite decide_True by done. split; [done|].
  simpl. by rewrite entryKey_insert, decide_True.
Qed.

(** C6: the removal by key alone erases the table entry: the pointer the
    lookup resolves for the key is taken out of the table, which holds one
    entry less and otherwise the pointers it held, and the proxy no longer
    carries the key.  It never alters a backend surface, so the unique key
    attached to the underlying texture stays.  The key-plus-proxy removal
    leaves the surfaces alone when asked not to invalidate, and strips the
    key from the surface the proxy is instantiated on when asked to, as
    [removeUniqueKeyFromProxy] does. *)
Theorem remove_by_key_keeps_surface_key (c : Context) (key : GrUniqueKey) :
  surfaces (after (processInvalidProxyUniqueKey key c)) = surfaces c
  ∧ (∀ p, isAbandoned c = false → table_find (proxies c) (table c) key = Some p →
       table (after (processInvalidProxyUniqueKey key c)) = table_remove p (table c)
       ∧ S (numUniqueKeyProxies_TestOnly (after (processInvalidProxyUniqueKey key c)))
         = numUniqueKeyProxies_TestOnly c
       ∧ entryKey (proxies (after (processInvalidProxyUniqueKey key c))) p = None
       ∧ (NoDup (table c) → p ∉ table (after (processInvalidProxyUniqueKey key c)))
       ∧ (∀ q, q ≠ p →
               q ∈ table (after (processInvalidProxyUniqueKey key c)) ↔ q ∈ table c))
  ∧ (isAbandoned c = false → registry_ok c →
     key_absent (after (processInvalidProxyUniqueKey key c)) key)
  ∧ (∀ p px s, isAbandoned c = false → proxies c !! p = Some px →
       getUniqueKey px = Some key → fTarget px = Some s →
       surfaces (after (processInvalidProxyUniqueKey3 key p false c)) = surfaces c
       ∧ surfaces (after (processInvalidProxyUniqueKey3 key p true c))
         = alter removeSurfaceUniqueKey s (surfaces c)
       ∧ surfaces (after (removeUniqueKeyFromProxy key p c))
         = alter removeSurfaceUniqueKey s (surfaces c)).
Proof.
  split; [apply processInvalidProxyUniqueKey_surfaces|].
  split.
  { intros p Ha Hf.
    destruct (processInvalidProxyUniqueKey_table c key p Ha Hf) as [Ht Hk].
    apply table_find_Some in Hf as [Hin _].
    split; [exact Ht|]. unfold numUniqueKeyProxies_TestOnly. rewrite Ht.
    split; [by apply table_remove_length|]. split; [exact Hk|].
    split; [apply table_remove_gone|].
    intros q Hne. split; [apply table_remove_subseteq | by apply table_remove_other]. }
  split; [apply processInvalidProxyUniqueKey_erases|].
  intros p px s Ha Hp Hk Ht.
  unfold removeUniqueKeyFromProxy, processInvalidProxyUniqueKey3.
  rewrite Ha, Hp. rewrite !decide_True by exact Hk. simpl. by rewrite Ht.
Qed.

Lemma remove_by_key_keeps_surface_key_witness :
  surfUniqueKey <$> surfaces (after (processInvalidProxyUniqueKey key2 (ctx_approx 128 128))) !! 5%nat
  = Some (Some key2)
  ∧ table (ctx_approx 128 128) = [0%nat]
  ∧ table (after (processInvalidProxyUniqueKey key2 (ctx_approx 128 128))) = []
  ∧ numUniqueKeyProxies_TestOnly (after (processInvalidProxyUniqueKey key2 (ctx_approx 128 128)))
    = 0%nat
  ∧ key_absent (after (processInvalidProxyUniqueKey key2 (ctx_approx 128 128))) key2
  ∧ surfUniqueKey <$> surfaces (after (removeUniqueKeyFromProxy key2 0%nat (ctx_approx 128 128))) !! 5%nat
    = Some None.
Proof.
  destruct (remove_by_key_keeps_surface_key (ctx_approx 128 128) key2)
    as (Hsurf & Herased & Habsent & Hstrip).
  destruct (Herased 0%nat eq_refl eq_refl) as (Htable & Hcount & _).
  split; [rewrite Hsurf; reflexivity|]. split; [reflexivity|].
  split; [rewrite Htable; reflexivity|].
  split; [apply eq_add_S; exact Hcount|].
  split.
  - apply Habsent; [reflexivity|].
    apply in_contract_ok, in_contract_run_all; [|apply in_contract_initial].
    repeat constructor.
  - destruct (Hstrip 0%nat proxy_approx 5%nat eq_refl eq_refl eq_refl eq_refl)
      as (_ & _ & Hrm).
    rewrite Hrm. reflexivity.
Defined.

(** ** Exactness *)

Lemma IsFunctionallyExact_instantiated_approx uninst c px surf :
  fFit px = kApprox → peekSurface c px = Some surf →
  IsFunctionallyExact uninst c px = true
  ↔ surfWidth surf = width px ∧ surfHeight surf = height px.
Proof.
  intros Hfit Hsurf. unfold IsFunctionallyExact. rewrite Hfit, Hsurf.
  rewrite andb_true_iff, !Z.eqb_eq. done.
Qed.

(** C8: for a proxy created with the approximate fit policy and a requested
    descriptor of 100x100 that is instantiated on a backend resource,
    [IsFunctionallyExact] answers false when the resource is larger (for
    instance padded to 128x128) and true when the resource's dimensions
    match the requested ones exactly. *)
Theorem IsFunctionallyExact_approx_100 (uninst : GrSurfaceDesc → bool) (c : Context)
    (px : GrTextureProxy) (surf : GrSurface) :
  fFit px = kApprox → width px = 100 → height px = 100 →
  peekSurface c px = Some surf →
  (100 < surfWidth surf ∨ 100 < surfHeight surf → IsFunctionallyExact uninst c px = false)
  ∧ (surfWidth surf = 100 → surfHeight surf = 100 → IsFunctionallyExact uninst c px = true).
Proof.
  intros Hfit Hw Hh Hsurf.
  pose proof (IsFunctionallyExact_instantiated_approx uninst c px surf Hfit Hsurf) as Hiff.
  rewrite Hw, Hh in Hiff. split.
  - intros Hlarger. apply not_true_is_false. rewrite Hiff. lia.
  - intros Hsw Hsh. by apply Hiff.
Qed.

Lemma IsFunctionallyExact_approx_100_witness :
  proxies (ctx_approx 128 128) !! 0%nat = Some proxy_approx
  ∧ IsFunctionallyExact (λ _, true) (ctx_approx 128 128) proxy_approx = false
  ∧ IsFunctionallyExact (λ _, false) (ctx_approx 100 100) proxy_approx = true.
Proof.
  split; [reflexivity|]. split.
  - apply (IsFunctionallyExact_approx_100 (λ _, true) (ctx_approx 128 128) proxy_approx
             {| surfDesc := desc_of 128 128; surfUniqueKey := Some key2 |});
      try reflexivity.
    left. unfold surfWidth. simpl. lia.
  - apply (IsFunctionallyExact_approx_100 (λ _, false) (ctx_approx 100 100) proxy_approx
             {| surfDesc := desc_of 100 100; surfUniqueKey := Some key2 |});
      reflexivity.
Defined.

(** ** Uniqueness *)







(** ** The key hand-over scenario

    Proxy A carries [key1] and the lookup returns A.  Assigning [key1] to a
    second proxy B fails and the lookup still returns A.  Once A is
    released the lookup returns empty, and then assigning [key1] to B
    succeeds. *)
Example scenario_key_handover :
  result (findProxyByUniqueKey key1 kTopLeft_GrSurfaceOrigin ctx_AB) = Some 0%nat
  ∧ result (assignUniqueKeyToProxy key1 1%nat ctx_AB) = false
  ∧ result (findProxyByUniqueKey key1 kTopLeft_GrSurfaceOrigin
              (after (assignUniqueKeyToProxy key1 1%nat ctx_AB))) = Some 0%nat
  ∧ result (findProxyByUniqueKey key1 kTopLeft_GrSurfaceOrigin
              (releaseProxy 0%nat ctx_AB)) = None
  ∧ result (assignUniqueKeyToProxy key1 1%nat (releaseProxy 0%nat ctx_AB)) = true
  ∧ result (findProxyByUniqueKey key1 kTopLeft_GrSurfaceOrigin
              (after (assignUniqueKeyToProxy key1 1%nat (releaseProxy 0%nat ctx_AB))))
    = Some 1%nat.
Proof. repeat split. Qed.

(** * Further properties of the Provider *)

(** ** The inline members *)

(** Calling [abandon] a second time changes nothing, and [abandon] touches
    nothing but the two backend pointers and the flag: the capabilities, the
    key-to-proxy table, the proxies and the surfaces are what they were. *)
Theorem abandon_idempotent (c : Context) :
  abandon (abandon c) = abandon c
  ∧ caps (abandon c) = caps c
  ∧ table (abandon c) = table c
  ∧ proxies (abandon c) = proxies c
  ∧ surfaces (abandon c) = surfaces c.
Proof. by repeat split. Qed.

(** The SK_DEBUG build of [isAbandoned] asserts exactly when the Provider is
    marked abandoned while one of its two backend pointers is not null; in
    every other state it returns what the release build returns. *)
Theorem isAbandoned_debug_asserts_iff (c : Context) :
  (isAbandoned_debug c = None
   ↔ fAbandoned (provider c) = true
     ∧ (fResourceCache (provider c) ≠ nullptr ∨ fResourceProvider (provider c) ≠ nullptr))
  ∧ (∀ b, isAbandoned_debug c = Some b → b = isAbandoned c).
Proof.
  unfold isAbandoned_debug, isAbandoned, SkToBool.
  destruct (fAbandoned (provider c)).
  - rewrite !negb_involutive.
    destruct (N.eqb_spec (fResourceCache (provider c)) nullptr) as [Hrc|Hrc];
      destruct (N.eqb_spec (fResourceProvider (provider c)) nullptr) as [Hrp|Hrp];
      simpl; (split; [split|]); try done; try tauto;
      try (by intros b [= <-]); try (intros [_ [?|?]]; done).
  - split; [split; [done | by intros [? _]] | by intros b [= <-]].
Qed.

Lemma isAbandoned_debug_asserts_iff_witness :
  isAbandoned_debug ctx_inconsistent = None
  ∧ isAbandoned_debug (abandon ctx_inconsistent) = Some true
  ∧ isAbandoned_debug ctx_A = Some false ∧ false = isAbandoned ctx_A.
Proof.
  destruct (isAbandoned_debug_asserts_iff ctx_inconsistent) as [[_ Hfire] _].
  split; [apply Hfire; split; [reflexivity | right; discriminate]|].
  split; [reflexivity|]. split; [reflexivity|].
  destruct (isAbandoned_debug_asserts_iff ctx_A) as [_ Hagree].
  exact (Hagree false eq_refl).
Defined.

(** Whenever the SK_DEBUG [isAbandoned] returns true, [recordingDDL] returns
    true as well.  The converse does not hold: a Provider constructed
    without a resource provider reports [recordingDDL] without being
    abandoned. *)
Theorem abandoned_implies_recordingDDL :
  (∀ c, isAbandoned_debug c = Some true → recordingDDL c = true)
  ∧ recordingDDL ctx_recording = true ∧ isAbandoned_debug ctx_recording = Some false.
Proof.
  split; [|by split].
  intros c. unfold isAbandoned_debug, recordingDDL.
  destruct (fAbandoned (provider c)); [|done].
  destruct (negb (SkToBool (fResourceProvider (provider c)))); [done|].
  by rewrite andb_false_r.
Qed.

Lemma abandoned_implies_recordingDDL_witness :
  isAbandoned_debug (abandon ctx_A) = Some true ∧ recordingDDL (abandon ctx_A) = true.
Proof.
  split; [reflexivity|].
  destruct abandoned_implies_recordingDDL as [Himp _].
  by apply (Himp (abandon ctx_A)).
Defined.

(** ** The table holds exactly the keyed proxies *)

Lemma isAbandoned_run op c : isAbandoned c = true → isAbandoned (run op c) = true.
Proof.
  intros Ha.
  assert (op = OpAbandon ∨ op ≠ OpAbandon) as [->|Hop]
    by (destruct op; (by left) || (by right)); [done|].
  pose proof (links_run op c Hop) as Hl. unfold links in Hl.
  injection Hl as _ _ Hab. unfold isAbandoned in *. by rewrite Hab.
Qed.

Lemma keyed_registered_register key p px c :
  keyed_registered c →
  keyed_registered {| provider := withTable (p :: table c) (provider c);
                      proxies := <[p := setUniqueKey (Some key) px]> (proxies c);
                      surfaces := surfaces c |}.
Proof.
  intros Hc Ha q qx. unfold table. simpl. fold (table c).
  destruct (decide (p = q)) as [<-|Hne].
  - intros _ _. apply list_elem_of_here.
  - rewrite lookup_insert_ne by done. intros Hq Hqk.
    apply list_elem_of_further. by apply (Hc Ha q qx).
Qed.

Lemma keyed_registered_assign key p c :
  keyed_registered c → keyed_registered (after (assignUniqueKeyToProxy key p c)).
Proof.
  intros Hc. unfold assignUniqueKeyToProxy.
  destruct (isAbandoned c); [done|].
  destruct (proxies c !! p) as [px|]; [|done].
  destruct (getUniqueKey px); [done|].
  destruct (table_find (proxies c) (table c) key); [done|].
  by apply keyed_registered_register.
Qed.

Lemma keyed_registered_adopt p s c :
  keyed_registered c → keyed_registered (after (adoptUniqueKeyFromSurface p s c)).
Proof.
  intros Hc. unfold adoptUniqueKeyFromSurface.
  destruct (isAbandoned c); [done|].
  destruct (surfaces c !! s ≫= surfUniqueKey); [|done].
  destruct (proxies c !! p) as [px|]; [|done].
  destruct (getUniqueKey px); [done|].
  by apply keyed_registered_register.
Qed.

Lemma keyed_registered_processInvalid3 key p inv c :
  keyed_registered c → keyed_registered (after (processInvalidProxyUniqueKey3 key p inv c)).
Proof.
  intros Hc. unfold processInvalidProxyUniqueKey3.
  destruct (isAbandoned c) eqn:Ha; [done|].
  destruct (proxies c !! p) as [px|] eqn:Hp; [|done].
  destruct (decide (getUniqueKey px = Some key)); [|done].
  intros _ q qx. unfold table. simpl. fold (table c).
  destruct (decide (p = q)) as [<-|Hne].
  - rewrite lookup_insert_eq. intros [= <-] [k Hk]. done.
  - rewrite lookup_insert_ne by done. intros Hq Hqk.
    apply table_remove_other; [done|]. by apply (Hc Ha q qx).
Qed.

Lemma keyed_registered_fresh c px :
  getUniqueKey px = None → keyed_registered c →
  keyed_registered {| provider := provider c;
                      proxies := <[fresh (dom (proxies c)) := px]> (proxies c);
                      surfaces := surfaces c |}.
Proof.
  intros Hpx Hc Ha q qx. simpl.
  destruct (decide (fresh (dom (proxies c)) = q)) as [<-|Hne].
  - rewrite lookup_insert_eq. intros [= <-] [k Hk]. by rewrite Hpx in Hk.
  - rewrite lookup_insert_ne by done. by apply (Hc Ha).
Qed.

Lemma keyed_registered_createWrapped s surf origin c :
  keyed_registered c → keyed_registered (after (createWrapped s surf origin c)).
Proof.
  intros Hc. unfold createWrapped. destruct (isAbandoned c); [done|].
  by apply keyed_registered_fresh.
Qed.

Lemma keyed_registered_run op c : keyed_registered c → keyed_registered (run op c).
Proof.
  intros Hc. destruct (isAbandoned c) eqn:Ha.
  { intros Ha'. by rewrite (isAbandoned_run op c Ha) in Ha'. }
  destruct op; simpl.
  - by apply keyed_registered_assign.
  - by apply keyed_registered_adopt.
  - by apply keyed_registered_processInvalid3.
  - unfold processInvalidProxyUniqueKey.
    destruct (table_find (proxies c) (table c) key); [|done].
    by apply keyed_registered_processInvalid3.
  - by apply keyed_registered_processInvalid3.
  - unfold findProxyByUniqueKey. by rewrite Ha.
  - unfold findOrCreateProxyByUniqueKey. rewrite Ha.
    destruct (table_find (proxies c) (table c) key); [done|].
    destruct (SkToBool _ && SkToBool _); [|done].
    destruct (findSurfaceByUniqueKey (surfaces c) key) as [[s surf]|]; [|done].
    pose proof (keyed_registered_createWrapped s surf origin c Hc) as Hw.
    simpl. destruct (result (createWrapped s surf origin c)); simpl; [|done].
    by apply keyed_registered_adopt.
  - unfold createProxy. rewrite Ha. by apply keyed_registered_fresh.
  - unfold createProxy_short, createProxy. rewrite Ha. by apply keyed_registered_fresh.
  - done.
  - unfold releaseProxy. destruct (proxies c !! p) as [px|] eqn:Hp; [|done].
    intros Ha1 q qx. simpl.
    destruct (decide (p = q)) as [<-|Hne]; [by rewrite lookup_delete_eq|].
    rewrite lookup_delete_ne by done. intros Hq Hqk.
    pose proof (Hc Ha q qx Hq Hqk) as Hin.
    unfold table. simpl. destruct (getUniqueKey px); [|done].
    simpl. by apply table_remove_other.
  - unfold instantiate. destruct (proxies c !! p) as [px|] eqn:Hp; [|done].
    destruct (surfaces c !! s); [|done]. destruct (fTarget px); [done|].
    intros _ q qx. unfold table. simpl. fold (table c).
    destruct (decide (p = q)) as [<-|Hne].
    + rewrite lookup_insert_eq. intros [= <-] Hk. by apply (Hc Ha p px).
    + rewrite lookup_insert_ne by done. by apply (Hc Ha).
  - done.
  - destruct (surfaces c !! s); [|done]. by apply keyed_registered_createWrapped.
Qed.

Lemma reachable_keyed_registered c : reachable c → keyed_registered c.
Proof.
  induction 1 as [rp rc cp surfs|op c _ IH].
  - intros _ p px Hp. done.
  - by apply keyed_registered_run.
Qed.

(** On a Provider that has not been abandoned, in every context reached by
    a sequence of operations, the key-to-proxy table holds exactly the live
    proxies that carry a unique key, each of them once. *)
Theorem table_holds_exactly_the_keyed_proxies (c : Context) :
  reachable c → isAbandoned c = false →
  NoDup (table c)
  ∧ ∀ p, p ∈ table c ↔ ∃ px, proxies c !! p = Some px ∧ is_Some (getUniqueKey px).
Proof.
  intros Hr Ha. destruct (reachable_sound c Hr) as [Hnd Hs].
  split; [exact Hnd|]. intros p. split.
  - intros Hin. destruct (Hs p Hin) as [k Hk].
    unfold entryKey in Hk. destruct (proxies c !! p) as [px|]; [|done].
    exists px. split; [done|]. by exists k.
  - intros (px & Hp & Hk). by apply (reachable_keyed_registered c Hr Ha p px).
Qed.

Lemma table_holds_exactly_the_keyed_proxies_witness :
  NoDup (table ctx_AB)
  ∧ (0%nat ∈ table ctx_AB) ∧ (1%nat ∉ table ctx_AB).
Proof.
  assert (Hr : reachable ctx_AB) by (constructor; apply reachable_ctx_A).
  destruct (table_holds_exactly_the_keyed_proxies ctx_AB Hr eq_refl) as [Hnd Hiff].
  split; [exact Hnd|]. split.
  - apply Hiff. eexists. split; [reflexivity|]. by eexists.
  - intros Hin. apply Hiff in Hin as (px & Hp & k & Hk).
    injection Hp as <-. discriminate Hk.
Defined.

(** ** Assigning, finding and removing compose *)

(** When [assignUniqueKeyToProxy] returns true, the proxy is findable via
    the key with [findProxyByUniqueKey] and carries it, and the lookup of
    every other key answers what it answered before. *)
Theorem assign_then_find (key : GrUniqueKey) (p : ProxyPtr) (c : Context) :
  result (assignUniqueKeyToProxy key p c) = true →
  (∀ origin, result (findProxyByUniqueKey key origin
                       (after (assignUniqueKeyToProxy key p c))) = Some p)
  ∧ entryKey (proxies (after (assignUniqueKeyToProxy key p c))) p = Some key
  ∧ (∀ key' origin, key' ≠ key →
       result (findProxyByUniqueKey key' origin (after (assignUniqueKeyToProxy key p c)))
       = result (findProxyByUniqueKey key' origin c)).
Proof.
  unfold assignUniqueKeyToProxy, findProxyByUniqueKey.
  destruct (isAbandoned c) eqn:Ha; [done|].
  destruct (proxies c !! p) as [px|] eqn:Hp; [|done].
  destruct (getUniqueKey px) eqn:Hk; [done|].
  destruct (table_find (proxies c) (table c) key) eqn:Hf; [done|].
  intros _. unfold isAbandoned, table. simpl. fold (isAbandoned c) (table c).
  rewrite Ha. simpl.
  assert (Hpk : entryKey (<[p:=setUniqueKey (Some key) px]> (proxies c)) p = Some key).
  { by rewrite entryKey_insert, decide_True. }
  split; [intros _; by rewrite decide_True|]. split; [done|].
  intros key' _ Hne. rewrite decide_False by (rewrite Hpk; by intros [= ->]).
  apply table_find_agree. intros r _. rewrite entryKey_insert.
  destruct (decide (p = r)) as [<-|]; [|done].
  rewrite (entryKey_lookup _ _ _ Hp), Hk. simpl. split; [by intros [= ->] | done].
Qed.

Lemma assign_then_find_witness :
  result (assignUniqueKeyToProxy key2 1%nat ctx_AB) = true
  ∧ result (findProxyByUniqueKey key2 kTopLeft_GrSurfaceOrigin
              (after (assignUniqueKeyToProxy key2 1%nat ctx_AB))) = Some 1%nat
  ∧ result (findProxyByUniqueKey key1 kTopLeft_GrSurfaceOrigin
              (after (assignUniqueKeyToProxy key2 1%nat ctx_AB))) = Some 0%nat.
Proof.
  split; [reflexivity|].
  destruct (assign_then_find key2 1%nat ctx_AB eq_refl) as (Hfind & _ & Hother).
  split; [apply Hfind|].
  rewrite (Hother key1 kTopLeft_GrSurfaceOrigin); [reflexivity | discriminate].
Defined.

Lemma findOrCreate_created key origin c s surf :
  isAbandoned c = false → table_find (proxies c) (table c) key = None →
  SkToBool (fResourceProvider (provider c)) && SkToBool (fResourceCache (provider c)) = true →
  findSurfaceByUniqueKey (surfaces c) key = Some (s, surf) →
  findOrCreateProxyByUniqueKey key origin c
  = mkOutcome (Some (fresh (dom (proxies c))))
      {| provider := withTable (fresh (dom (proxies c)) :: table c) (provider c);
         proxies :=
           <[fresh (dom (proxies c)) :=
               {| fDesc := surfDesc surf; fOrigin := origin;
                  fMipMapped := GrMipMapped_kNo; fFit := kExact;
                  fBudgeted := SkBudgeted_kYes;
                  fSurfaceFlags := GrInternalSurfaceFlags_kNone;
                  fUniqueKey := Some key; fTarget := Some s |}]> (proxies c);
         surfaces := surfaces c |}
      [ResourceProviderPtr; ResourceCachePtr].
Proof.
  intros Ha Hf Hptr Hfs.
  pose proof (findSurfaceByUniqueKey_Some _ _ _ _ Hfs) as [Hsurf Hkey].
  unfold findOrCreateProxyByUniqueKey. rewrite Ha, Hf, Hptr, Hfs.
  unfold createWrapped. rewrite Ha. simpl.
  unfold adoptUniqueKeyFromSurface. unfold isAbandoned in *. simpl. rewrite Ha, Hsurf. simpl.
  rewrite Hkey, lookup_insert_eq. simpl. rewrite insert_insert_eq. reflexivity.
Qed.

(** [findOrCreateProxyByUniqueKey] finds or creates: a proxy it returns is
    live, carries the key and is what [findProxyByUniqueKey] returns from
    then on; when the table had no entry for the key, the returned proxy is
    a new one that wraps a backend resource whose unique key is the key;
    and when it returns empty, nothing has changed. *)
Theorem findOrCreate_result_is_findable (key : GrUniqueKey) (origin : GrSurfaceOrigin)
    (c : Context) :
  (∀ p, result (findOrCreateProxyByUniqueKey key origin c) = Some p →
        result (findProxyByUniqueKey key origin
                  (after (findOrCreateProxyByUniqueKey key origin c))) = Some p
        ∧ ∃ px, proxies (after (findOrCreateProxyByUniqueKey key origin c)) !! p = Some px
                ∧ getUniqueKey px = Some key
                ∧ (table_find (proxies c) (table c) key = None →
                   proxies c !! p = None
                   ∧ ∃ s surf, fTarget px = Some s ∧ surfaces c !! s = Some surf
                               ∧ surfUniqueKey surf = Some key))
  ∧ (result (findOrCreateProxyByUniqueKey key origin c) = None →
     after (findOrCreateProxyByUniqueKey key origin c) = c).
Proof.
  destruct (isAbandoned c) eqn:Ha.
  { by rewrite (abandoned_findOrCreateProxyByUniqueKey c Ha). }
  destruct (table_find (proxies c) (table c) key) as [q|] eqn:Hf.
  { assert (Hhit : findOrCreateProxyByUniqueKey key origin c = done_with (Some q) c).
    { unfold findOrCreateProxyByUniqueKey. by rewrite Ha, Hf. }
    rewrite Hhit. split; [|done]. simpl. intros p [= <-].
    unfold findProxyByUniqueKey. rewrite Ha. simpl. split; [done|].
    apply table_find_Some in Hf as [_ Hk]. unfold entryKey in Hk.
    destruct (proxies c !! q) as [px|]; [|done]. exists px. by repeat split. }
  destruct (SkToBool (fResourceProvider (provider c))
            && SkToBool (fResourceCache (provider c))) eqn:Hptr.
  2:{ unfold findOrCreateProxyByUniqueKey. by rewrite Ha, Hf, Hptr. }
  destruct (findSurfaceByUniqueKey (surfaces c) key) as [[s surf]|] eqn:Hfs.
  2:{ unfold findOrCreateProxyByUniqueKey. by rewrite Ha, Hf, Hptr, Hfs. }
  rewrite (findOrCreate_created key origin c s surf Ha Hf Hptr Hfs).
  apply findSurfaceByUniqueKey_Some in Hfs as [Hsurf Hkey].
  split; [|done]. simpl. intros p [= <-].
  set (p := fresh (dom (proxies c))).
  assert (Hp : proxies c !! p = None) by apply not_elem_of_dom, is_fresh.
  split.
  - unfold findProxyByUniqueKey. unfold isAbandoned, table in *. simpl. rewrite Ha. simpl.
    rewrite decide_True; [done|]. by rewrite entryKey_insert, decide_True.
  - eexists. split; [apply lookup_insert_eq|]. split; [done|].
    intros _. split; [done|]. by exists s, surf.
Qed.

Lemma findOrCreate_result_is_findable_witness :
  result (findOrCreateProxyByUniqueKey key2 kTopLeft_GrSurfaceOrigin ctx_A_surface)
  = Some 1%nat
  ∧ result (findProxyByUniqueKey key2 kTopLeft_GrSurfaceOrigin
              (after (findOrCreateProxyByUniqueKey key2 kTopLeft_GrSurfaceOrigin
                        ctx_A_surface))) = Some 1%nat
  ∧ result (findOrCreateProxyByUniqueKey key2 kTopLeft_GrSurfaceOrigin ctx_A) = None
  ∧ after (findOrCreateProxyByUniqueKey key2 kTopLeft_GrSurfaceOrigin ctx_A) = ctx_A.
Proof.
  split; [reflexivity|].
  destruct (findOrCreate_result_is_findable key2 kTopLeft_GrSurfaceOrigin ctx_A_surface)
    as [Hsome _].
  split; [apply (Hsome 1%nat eq_refl)|].
  split; [reflexivity|].
  destruct (findOrCreate_result_is_findable key2 kTopLeft_GrSurfaceOrigin ctx_A)
    as [_ Hnone].
  exact (Hnone eq_refl).
Defined.

(** In a context reached by operations that apply
    [adoptUniqueKeyFromSurface] only to surfaces whose key is not
    registered yet, on a Provider that has not been abandoned: after
    [removeUniqueKeyFromProxy] has taken a key off a proxy, the proxy
    carries no key, the key is no longer found, and the same key can be
    assigned again, to this proxy or to any other live proxy without a
    key. *)
Theorem remove_then_assign_again (key : GrUniqueKey) (p : ProxyPtr) (px : GrTextureProxy)
    (c : Context) :
  reachable_in_contract c → isAbandoned c = false →
  proxies c !! p = Some px → getUniqueKey px = Some key →
  entryKey (proxies (after (removeUniqueKeyFromProxy key p c))) p = None
  ∧ (∀ origin, result (findProxyByUniqueKey key origin
                         (after (removeUniqueKeyFromProxy key p c))) = None)
  ∧ (∀ q qx, proxies (after (removeUniqueKeyFromProxy key p c)) !! q = Some qx →
             getUniqueKey qx = None →
             result (assignUniqueKeyToProxy key q (after (removeUniqueKeyFromProxy key p c)))
             = true).
Proof.
  intros Hr Ha Hp Hk. pose proof (in_contract_ok c Hr) as Hok.
  pose proof (reachable_keyed_registered c (in_contract_reachable c Hr) Ha p px Hp
                (ex_intro _ key Hk)) as Hin.
  unfold removeUniqueKeyFromProxy, processInvalidProxyUniqueKey3.
  rewrite Ha, Hp, decide_True by done. simpl.
  set (c' := {| provider := withTable (table_remove p (table c)) (provider c);
                proxies := <[p:=setUniqueKey None px]> (proxies c);
                surfaces := _ |}).
  assert (Ha' : isAbandoned c' = false) by exact Ha.
  assert (Hmiss : table_find (proxies c') (table c') key = None).
  { apply table_find_None. intros q Hq. unfold c', table in Hq. simpl in Hq.
    fold (table c) in Hq. simpl.
    assert (Hqp : q ≠ p).
    { intros ->. revert Hq. apply table_remove_gone, Hok. }
    rewrite entryKey_insert, decide_False by done.
    intros Hqk. apply Hqp. apply table_remove_subseteq in Hq.
    apply (ok_keys c Hok q p key); [done..|].
    by rewrite (entryKey_lookup _ _ _ Hp). }
  split; [simpl; by rewrite entryKey_insert, decide_True|].
  split.
  - intros origin. unfold findProxyByUniqueKey. by rewrite Ha'.
  - intros q qx Hq Hqk. change (proxies c' !! q = Some qx) in Hq.
    unfold assignUniqueKeyToProxy. by rewrite Ha', Hq, Hqk, Hmiss.
Qed.

Lemma remove_then_assign_again_witness :
  entryKey (proxies (after (removeUniqueKeyFromProxy key1 0%nat ctx_AB))) 0%nat = None
  ∧ result (findProxyByUniqueKey key1 kTopLeft_GrSurfaceOrigin
              (after (removeUniqueKeyFromProxy key1 0%nat ctx_AB))) = None
  ∧ result (assignUniqueKeyToProxy key1 1%nat
              (after (removeUniqueKeyFromProxy key1 0%nat ctx_AB))) = true.
Proof.
  assert (Hr : reachable_in_contract ctx_AB).
  { apply in_contract_run; [|exact I].
    apply in_contract_run_all; [repeat constructor | apply in_contract_initial]. }
  destruct (remove_then_assign_again key1 0%nat
              {| fDesc := desc_of 64 64; fOrigin := kTopLeft_GrSurfaceOrigin;
                 fMipMapped := GrMipMapped_kNo; fFit := kExact; fBudgeted := SkBudgeted_kYes;
                 fSurfaceFlags := GrInternalSurfaceFlags_kNone;
                 fUniqueKey := Some key1; fTarget := None |}
              ctx_AB Hr eq_refl eq_refl eq_refl) as (Hgone & Hfind & Hagain).
  split; [exact Hgone|]. split; [apply Hfind|].
  eapply Hagain; reflexivity.
Defined.

(** * The concave-paths scene *)

Module ConcavePathsFacts.
Import ConcavePaths.

Lemma save_depth_app (a b : SkCanvas) (d : nat) :
  save_depth d (a ++ b) = save_depth d a ≫= λ d', save_depth d' b.
Proof.
  revert d. induction a as [|c a IH]; intros d; simpl; [done|].
  destruct c; try apply IH. destruct d; [done | apply IH].
Qed.

Lemma save_depth_shift (cs : SkCanvas) (d d' k : nat) :
  save_depth d cs = Some d' → save_depth (d + k) cs = Some (d' + k)%nat.
Proof.
  revert d. induction cs as [|c cs IH]; intros d; simpl.
  - by intros [= ->].
  - destruct c; try apply (IH d); try apply (IH (S d)).
    destruct d as [|d]; [done|]. apply (IH d).
Qed.

Lemma balanced_at_depth (cs : SkCanvas) (d : nat) :
  balanced cs → save_depth d cs = Some d.
Proof. intros Hb. apply (save_depth_shift cs 0 0 d Hb). Qed.

Lemma tests_only_append :
  Forall (λ t : SkCanvas → SkPaint → SkCanvas,
            ∀ canvas paint, t canvas paint = canvas ++ t [] paint) tests.
Proof.
  repeat constructor; intros canvas paint;
    cbv beta delta [test_concave test_reverse_concave test_bowtie test_fake_bowtie
      test_intruding_vertex test_fish test_fast_forward test_hole test_star test_twist
      test_inversion_repeat_vertex test_stairstep test_stairstep2 test_overlapping
      test_partners test_winding_merged_to_zero test_monotone_1 test_monotone_2
      test_monotone_3 test_monotone_4 test_monotone_5 test_degenerate
      test_coincident_edge test_bowtie_coincident_triangle test_coincident_edges_1
      test_coincident_edges_2 test_coincident_edges_3 test_coincident_edges_4 call] zeta;
    rewrite <- ?app_assoc; reflexivity.
Qed.

Lemma concavepaths_fold (canvas : SkCanvas) :
  concavepaths canvas = foldl (λ c t, t c gm_paint) canvas tests.
Proof. reflexivity. Qed.

Lemma fold_only_appends (ts : list (SkCanvas → SkPaint → SkCanvas)) (paint : SkPaint) :
  Forall (λ t : SkCanvas → SkPaint → SkCanvas,
            ∀ canvas paint, t canvas paint = canvas ++ t [] paint) ts →
  ∀ canvas, foldl (λ c t, t c paint) canvas ts
            = canvas ++ foldl (λ c t, t c paint) [] ts.
Proof.
  induction 1 as [|t ts Ht _ IH]; intros canvas; simpl.
  - by rewrite app_nil_r.
  - cbv beta. rewrite (IH (t canvas paint)), (Ht canvas paint), <- app_assoc.
    f_equal. symmetry. apply (IH (t [] paint)).
Qed.

Lemma concavepaths_only_appends (canvas : SkCanvas) :
  concavepaths canvas = canvas ++ concavepaths [].
Proof.
  rewrite !concavepaths_fold. apply fold_only_appends, tests_only_append.
Qed.

Lemma tests_balanced :
  Forall (λ t : SkCanvas → SkPaint → SkCanvas, ∀ paint, balanced (t [] paint)) tests.
Proof. repeat constructor; intros paint; reflexivity. Qed.

(** Every test function, and the scene as a whole, leaves the canvas's save
    stack as deep as it found it, undoing only saves of its own; and the
    only transform it makes outside its own save/restore pairs, the one
    that outlives it, is the [translate(0, 0)] of [test_concave]. *)
Theorem concavepaths_restores_canvas_state (canvas : SkCanvas) (d : nat) :
  save_depth 0 canvas = Some d →
  save_depth 0 (concavepaths canvas) = Some d
  ∧ Forall (λ t : SkCanvas → SkPaint → SkCanvas,
              ∀ paint, save_depth 0 (t canvas paint) = Some d ∧ balanced (t [] paint)) tests
  ∧ balanced (concavepaths [])
  ∧ lasting_transforms 0 (concavepaths []) = [translate 0%Q 0%Q]
  ∧ Forall (λ t : SkCanvas → SkPaint → SkCanvas,
              ∀ paint, Forall (λ c, c = translate 0%Q 0%Q)
                         (lasting_transforms 0 (t [] paint))) tests.
Proof.
  intros Hd.
  assert (Hgm : balanced (concavepaths [])) by reflexivity.
  split.
  { rewrite concavepaths_only_appends, save_depth_app, Hd.
    change (save_depth d (concavepaths []) = Some d). by apply balanced_at_depth. }
  split.
  { pose proof tests_only_append as Happ. pose proof tests_balanced as Hbal.
    rewrite Forall_forall in Happ, Hbal. apply Forall_forall. intros t Ht paint.
    split; [|by apply Hbal].
    rewrite (Happ t Ht), save_depth_app, Hd.
    change (save_depth d (t [] paint) = Some d). by apply balanced_at_depth, Hbal. }
  split; [exact Hgm|]. split; [reflexivity|].
  repeat constructor.
Qed.

Lemma concavepaths_restores_canvas_state_witness :
  save_depth 0 (concavepaths [save; translate 7%Q 9%Q; save]) = Some 2%nat
  ∧ save_depth 0 (test_star [save; translate 7%Q 9%Q; save] gm_paint) = Some 2%nat.
Proof.
  destruct (concavepaths_restores_canvas_state [save; translate 7%Q 9%Q; save] 2 eq_refl)
    as (Hgm & Htests & _).
  split; [exact Hgm|].
  rewrite Forall_forall in Htests.
  assert (Hin : test_star ∈ tests).
  { unfold tests. do 8 apply list_elem_of_further. apply list_elem_of_here. }
  exact (proj1 (Htests test_star Hin gm_paint)).
Defined.

Lemma draws_app (a b : SkCanvas) : draws (a ++ b) = draws a ++ draws b.
Proof. unfold draws. apply List.filter_app. Qed.

(** Every test function draws exactly one path, which is not empty, with the
    paint it was handed, whatever that paint is.  The scene adds 28 draws to
    the canvas, one per test, after whatever was drawn before, and every one
    of them uses the scene's paint: anti-aliased, fill style. *)
Theorem concavepaths_draws_once_per_test (canvas : SkCanvas) :
  Forall (λ t : SkCanvas → SkPaint → SkCanvas,
            ∀ paint, ∃ path, path ≠ []
                             ∧ draws (t canvas paint) = draws canvas ++ [drawPath path paint])
    tests
  ∧ draws (concavepaths canvas) = draws canvas ++ draws (concavepaths [])
  ∧ length (draws (concavepaths [])) = length tests
  ∧ length tests = 28%nat
  ∧ Forall (λ c, ∃ path, c = drawPath path [setAntiAlias true; setStyle kFill_Style])
      (draws (concavepaths [])).
Proof.
  split.
  { pose proof tests_only_append as Happ. rewrite Forall_forall in Happ.
    assert (Hone : Forall (λ t : SkCanvas → SkPaint → SkCanvas,
                             ∀ paint, ∃ path, path ≠ []
                                              ∧ draws (t [] paint) = [drawPath path paint])
                     tests).
    { unfold tests.
      repeat (constructor;
              [intros paint; eexists; (split; [|reflexivity]); discriminate|]).
      constructor. }
    rewrite Forall_forall in Hone. apply Forall_forall. intros t Ht paint.
    destruct (Hone t Ht paint) as (path & Hne & Hdraw).
    exists path. split; [done|]. by rewrite (Happ t Ht), draws_app, Hdraw. }
  split; [by rewrite concavepaths_only_appends, draws_app|].
  split; [reflexivity|]. split; [reflexivity|].
  cbv. repeat (constructor; [eexists; reflexivity|]). constructor.
Qed.

End ConcavePathsFacts.
